(** * The SAH partitioner of appleseed's BVH builder

    A shallow embedding of [foundation::bvh::SAHPartitioner]
    (foundation/math/bvh/bvh_sahpartitioner.h) and the properties of its
    specification.

    Conventions of the embedding:
    - [size_t] values are [nat]; the two subtractions of the source that can
      wrap ([end - begin] and [Tree::Dimension - 1]) are written out;
    - [std::vector] is [list]; [operator[]] outside the vector and a failing
      [assert] have no defined result, they are the two [fault]s of the
      [result] monad;
    - the template parameter [Tree] (its scalar [ValueType], its box
      [AABBType] and [Dimension]), the sort predicate and [std::sort] are
      parameters of the development, given as classes. *)

From Stdlib Require Import Arith ZArith List Bool Lia Permutation Sorted.
From Stdlib Require Import SpecFloat.
From Stdlib Require String Ascii DecimalString DecimalZ DecimalPos.
Import ListNotations.

Set Implicit Arguments.

(** ** Results of running the code *)

Inductive fault : Type :=
| AssertionFailed   (* an [assert] of the source does not hold *)
| OutOfRange.       (* an access outside a vector: undefined behaviour *)

Inductive result (A : Type) : Type :=
| Ok (a : A)
| Fault (f : fault).

Arguments Ok {A} a.
Arguments Fault {A} f.

Definition bind {A B : Type} (m : result A) (k : A -> result B) : result B :=
  match m with
  | Ok a => k a
  | Fault f => Fault f
  end.

Declare Scope result_scope.
Delimit Scope result_scope with result.
Notation "x <- m ;; k" := (bind m (fun x => k))
  (at level 61, m at next level, right associativity) : result_scope.
Notation "' p <- m ;; k" := (bind m (fun p => k))
  (at level 61, p pattern, m at next level, right associativity) : result_scope.
Open Scope result_scope.

(** ** Vectors *)

(** [v[i]], read. *)
Definition vec_get {A : Type} (v : list A) (i : nat) : result A :=
  match nth_error v i with
  | Some a => Ok a
  | None => Fault OutOfRange
  end.

(** [v[i] = a]. *)
Definition vec_set {A : Type} (v : list A) (i : nat) (a : A) : result (list A) :=
  if i <? length v then Ok (firstn i v ++ a :: skipn (S i) v)
  else Fault OutOfRange.

(** [v.resize(n)], new slots holding the value-initialised [d]. *)
Definition resize {A : Type} (n : nat) (d : A) (v : list A) : list A :=
  firstn n v ++ repeat d (n - length v).

(** The items of the window [[begin, begin + count)] of a vector. *)
Definition window {A : Type} (begin count : nat) (v : list A) : list A :=
  firstn count (skipn begin v).

(** A [for] loop whose counter takes the values of [counter] in turn. *)
Fixpoint for_each {S : Type} (counter : list nat)
    (body : nat -> S -> result S) (s : S) : result S :=
  match counter with
  | [] => Ok s
  | i :: rest => s' <- body i s ;; for_each rest body s'
  end.

(** ** The template parameters *)

(** [Tree::ValueType]: the operations the partitioner applies to scalars. *)
Class Scalar (V : Type) : Type := {
  numeric_max : V;              (* std::numeric_limits<ValueType>::max() *)
  value_init : V;               (* ValueType() *)
  of_size : nat -> V;           (* conversion of a size_t operand *)
  vadd : V -> V -> V;
  vmul : V -> V -> V;
  vdiv : V -> V -> V;
  vgt : V -> V -> bool;         (* a > b *)
  vle : V -> V -> bool          (* a <= b *)
}.

(** [Tree::AABBType]: the three capabilities of a bounding box.
    [invalidate] is the box left by [bbox.invalidate()], [insert acc b] the
    box left in [acc] by [acc.insert(b)]. *)
Class AABB (V B : Type) : Type := {
  invalidate : B;
  insert : B -> B -> B;
  half_surface_area : B -> V
}.

(** ** The partitioner *)

Record SAHPartitioner (V : Type) : Type := {
  m_max_leaf_size : nat;
  m_interior_node_traversal_cost : V;
  m_triangle_intersection_cost : V;
  m_indices : list nat;
  m_left_areas : list V
}.

(** The best partition found so far by the sweep. *)
Record BestSplit (V : Type) : Type := {
  best_split_cost : V;
  best_split_dim : nat;
  best_split_pivot : nat
}.

(** Strict weak orderings, the requirement of [std::sort] on its comparison,
    over the items being sorted. *)
Definition strict_weak_on (cmp : nat -> nat -> bool) (l : list nat) : Prop :=
  (forall a, In a l -> cmp a a = false) /\
  (forall a b c, In a l -> In b l -> In c l ->
     cmp a b = true -> cmp b c = true -> cmp a c = true) /\
  (forall a b c, In a l -> In b l -> In c l ->
     cmp a b = false -> cmp b a = false ->
     cmp b c = false -> cmp c b = false ->
     cmp a c = false /\ cmp c a = false).

(** No item is ordered before an item on its left. *)
Definition is_sorted (cmp : nat -> nat -> bool) (l : list nat) : Prop :=
  StronglySorted (fun a b => cmp b a = false) l.

(** [Tree::Dimension]. *)
Class TreeDimension : Type := Dimension : nat.

(** What the header takes from its includes.
    [BboxSortPredicate bboxes dim lhs rhs] is
    [BboxSortPredicate<AABBType> predicate(bboxes, dim)] applied to [lhs]
    and [rhs]; the class is declared in bvh_bboxsortpredicate.h.
    [std_sort comp l] is the order [std::sort(first, last, comp)] leaves
    the items [l] between [first] and [last] in. *)
Class Sorting (B : Type) : Type := {
  BboxSortPredicate : list B -> nat -> nat -> nat -> bool;
  std_sort : (nat -> nat -> bool) -> list nat -> list nat
}.

(** What the standard promises of [std::sort] for a strict weak ordering:
    the items are permuted, into an order sorted by the comparison. *)
Class StdSort {B : Type} (SO : Sorting B) : Prop := {
  std_sort_permutes : forall cmp l,
    strict_weak_on cmp l -> Permutation l (std_sort cmp l);
  std_sort_sorts : forall cmp l,
    strict_weak_on cmp l -> is_sorted cmp (std_sort cmp l)
}.

Section Partitioner.

Context {V B : Type} {SV : Scalar V} {BB : AABB V B}.
Context {TD : TreeDimension} {SO : Sorting B}.

(** The constructor. *)
Definition make (max_leaf_size : nat) (interior_node_traversal_cost
    triangle_intersection_cost : V) : SAHPartitioner V :=
  {| m_max_leaf_size := max_leaf_size;
     m_interior_node_traversal_cost := interior_node_traversal_cost;
     m_triangle_intersection_cost := triangle_intersection_cost;
     m_indices := [];
     m_left_areas := [] |}.

Definition with_arrays (p : SAHPartitioner V) (indices : list nat)
    (left_areas : list V) : SAHPartitioner V :=
  {| m_max_leaf_size := m_max_leaf_size p;
     m_interior_node_traversal_cost := m_interior_node_traversal_cost p;
     m_triangle_intersection_cost := m_triangle_intersection_cost p;
     m_indices := indices;
     m_left_areas := left_areas |}.

(** [initialize(size)]. *)
Definition initialize (size : nat) (p : SAHPartitioner V)
    : result (SAHPartitioner V) :=
  let indices := resize size 0 (m_indices p) in
  indices <- for_each (seq 0 size) (fun i ind => vec_set ind i i) indices ;;
  Ok (with_arrays p indices (m_left_areas p)).

(** [compute_bbox(bboxes, begin, end)]. *)
Definition compute_bbox (bboxes : list B) (begin end_ : nat)
    (p : SAHPartitioner V) : result B :=
  for_each (seq begin (end_ - begin))
    (fun i bbox =>
       idx <- vec_get (m_indices p) i ;;
       b <- vec_get bboxes idx ;;
       Ok (insert bbox b))
    invalidate.

(** [get_item_ordering()]. *)
Definition get_item_ordering (p : SAHPartitioner V) : list nat := m_indices p.

(** Modelled from the spec: [ensure_minimum_size] of
    foundation/utility/memory.h is not among the sources; the spec has the
    scratch buffer hold at least [count - 1] slots, grown if needed and never
    shrunk. *)
Definition ensure_minimum_size (v : list V) (minimum_size : nat) : list V :=
  if length v <? minimum_size then resize minimum_size value_init v else v.

(** [std::sort(&m_indices[begin], &m_indices[begin] + count, predicate)]. *)
Definition sort_range (cmp : nat -> nat -> bool) (begin count : nat)
    (indices : list nat) : result (list nat) :=
  if begin + count <=? length indices then
    Ok (firstn begin indices
          ++ std_sort cmp (window begin count indices)
          ++ skipn (begin + count) indices)
  else Fault OutOfRange.

(** The body of the left-to-right sweep. *)
Definition left_sweep_body (bboxes : list B) (begin : nat)
    (indices : list nat) (i : nat) (s : B * list V) : result (B * list V) :=
  let '(bbox_accumulator, left_areas) := s in
  idx <- vec_get indices (begin + i) ;;
  b <- vec_get bboxes idx ;;
  let bbox_accumulator := insert bbox_accumulator b in
  left_areas <- vec_set left_areas i (half_surface_area bbox_accumulator) ;;
  Ok (bbox_accumulator, left_areas).

(** The body of the right-to-left sweep. *)
Definition right_sweep_body (bboxes : list B) (begin count : nat)
    (indices : list nat) (left_areas : list V) (dim : nat) (i : nat)
    (s : B * BestSplit V) : result (B * BestSplit V) :=
  let '(bbox_accumulator, best) := s in
  idx <- vec_get indices (begin + i) ;;
  b <- vec_get bboxes idx ;;
  let bbox_accumulator := insert bbox_accumulator b in
  la <- vec_get left_areas (i - 1) ;;
  let left_cost := vmul la (of_size i) in
  let right_cost :=
    vmul (half_surface_area bbox_accumulator) (of_size (count - i)) in
  let split_cost := vadd left_cost right_cost in
  if vgt (best_split_cost best) split_cost then
    Ok (bbox_accumulator,
        {| best_split_cost := split_cost;
           best_split_dim := dim;
           best_split_pivot := i |})
  else Ok (bbox_accumulator, best).

(** The body of the loop over the dimensions. *)
Definition dimension_body (bboxes : list B) (begin count : nat) (dim : nat)
    (s : list nat * list V * BestSplit V)
    : result (list nat * list V * BestSplit V) :=
  let '(indices, left_areas, best) := s in
  indices <- sort_range (BboxSortPredicate bboxes dim) begin count indices ;;
  '(_, left_areas) <-
    for_each (seq 0 (count - 1)) (left_sweep_body bboxes begin indices)
      (invalidate, left_areas) ;;
  '(_, best) <-
    for_each (rev (seq 1 (count - 1)))
      (right_sweep_body bboxes begin count indices left_areas dim)
      (invalidate, best) ;;
  Ok (indices, left_areas, best).

(** The loop over the dimensions, from the working arrays of the call. *)
Definition find_best_split (bboxes : list B) (begin count : nat)
    (indices : list nat) (left_areas : list V)
    : result (list nat * list V * BestSplit V) :=
  for_each (seq 0 Dimension) (dimension_body bboxes begin count)
    (indices, left_areas,
     {| best_split_cost := numeric_max;
        best_split_dim := 0;
        best_split_pivot := 0 |}).

(** The cost of the best split, as compared with the cost of a leaf. *)
Definition split_cost_of (p : SAHPartitioner V) (bbox : B) (best_cost : V) : V :=
  vadd (m_interior_node_traversal_cost p)
       (vmul (vdiv best_cost (half_surface_area bbox))
             (m_triangle_intersection_cost p)).

Definition leaf_cost_of (p : SAHPartitioner V) (count : nat) : V :=
  vmul (of_size count) (m_triangle_intersection_cost p).

(** [best_split_dim < Tree::Dimension - 1] in [size_t]: with no dimension
    the right-hand side wraps to the largest [size_t]. *)
Definition before_last_dimension (best_split_dim : nat) : bool :=
  if Dimension =? 0 then true else best_split_dim <? Dimension - 1.

(** [partition(bboxes, begin, end, bbox)]: the value returned and the
    partitioner after the call.  A range with [end < begin] makes the
    [size_t] difference wrap to a count no vector can hold and is given no
    result. *)
Definition partition (bboxes : list B) (begin end_ : nat) (bbox : B)
    (p : SAHPartitioner V) : result (nat * SAHPartitioner V) :=
  if end_ <? begin then Fault OutOfRange else
  let count := end_ - begin in
  if count <=? 1 then Fault AssertionFailed else
  if count <=? m_max_leaf_size p then Ok (end_, p) else
  let left_areas := ensure_minimum_size (m_left_areas p) (count - 1) in
  '(indices, left_areas, best) <-
    find_best_split bboxes begin count (m_indices p) left_areas ;;
  let split_cost := split_cost_of p bbox (best_split_cost best) in
  let leaf_cost := leaf_cost_of p count in
  if vle leaf_cost split_cost then
    Ok (end_, with_arrays p indices left_areas)
  else
    indices <-
      (if before_last_dimension (best_split_dim best) then
         sort_range (BboxSortPredicate bboxes (best_split_dim best))
           begin count indices
       else Ok indices) ;;
    if begin + best_split_pivot best <? end_ then
      Ok (begin + best_split_pivot best, with_arrays p indices left_areas)
    else Fault AssertionFailed.

(** ** The cost model, as the specification words it

    The definitions below do not follow the loops of [partition]: they
    state the costs the specification gives to a candidate split, over the
    boxes of a range in the order of the range.  The properties section
    relates them to the code. *)

(** The boxes of a list of items. *)
Definition boxes_of (bboxes : list B) (items : list nat) : list B :=
  map (fun idx => nth idx bboxes invalidate) items.

(** The accumulated box of a list of boxes, inserted in turn. *)
Definition accumulate (bs : list B) : B := fold_left insert bs invalidate.

(** The half surface area of the left child holding the first [i] boxes. *)
Definition left_half_area (bs : list B) (i : nat) : V :=
  half_surface_area (accumulate (firstn i bs)).

(** The half surface area of the right child holding the boxes from
    position [i] on, accumulated from the right end. *)
Definition right_half_area (bs : list B) (i : nat) : V :=
  half_surface_area (accumulate (rev (skipn i bs))).

(** [left_half_area(i) * i + right_half_area(i) * (count - i)]. *)
Definition candidate_cost (bs : list B) (i : nat) : V :=
  vadd (vmul (left_half_area bs i) (of_size i))
       (vmul (right_half_area bs i) (of_size (length bs - i))).

(** The pivot positions of a range of [count] items, in the order the
    right-to-left sweep meets them. *)
Definition pivots (count : nat) : list nat := rev (seq 1 (count - 1)).

(** The candidate split of dimension [dim] at pivot [i]. *)
Definition candidate_at (bs : list B) (dim i : nat) : BestSplit V :=
  {| best_split_cost := candidate_cost bs i;
     best_split_dim := dim;
     best_split_pivot := i |}.

(** The candidates of one dimension, for the range in sorted order. *)
Definition candidates_of_dimension (bs : list B) (dim : nat)
    : list (BestSplit V) :=
  map (candidate_at bs dim) (pivots (length bs)).

(** The range after it has been sorted along each dimension of [dims] in
    turn. *)
Definition sorted_along (bboxes : list B) (dims : list nat)
    (items : list nat) : list nat :=
  fold_left (fun l dim => std_sort (BboxSortPredicate bboxes dim) l) dims items.

(** The candidates of all the dimensions of [dims], in the order they are
    met: earlier dimension first, then the order of [pivots]. *)
Fixpoint candidates (bboxes : list B) (dims : list nat) (items : list nat)
    : list (BestSplit V) :=
  match dims with
  | [] => []
  | dim :: dims' =>
      let items' := std_sort (BboxSortPredicate bboxes dim) items in
      candidates_of_dimension (boxes_of bboxes items') dim
        ++ candidates bboxes dims' items'
  end.

(** First encountered wins: a candidate replaces the best one only when
    its cost is strictly lower. *)
Definition keep_best (best c : BestSplit V) : BestSplit V :=
  if vgt (best_split_cost best) (best_split_cost c) then c else best.

(** The running minimum from [numeric_max]. *)
Definition no_split : BestSplit V :=
  {| best_split_cost := numeric_max;
     best_split_dim := 0;
     best_split_pivot := 0 |}.

Definition best_candidate (cs : list (BestSplit V)) : BestSplit V :=
  fold_left keep_best cs no_split.

(** The minimum over the candidates alone, first encountered wins: the
    running minimum from the first candidate. *)
Definition minimum_candidate (cs : list (BestSplit V))
    : option (BestSplit V) :=
  match cs with
  | [] => None
  | c :: cs' => Some (fold_left keep_best cs' c)
  end.

(** The costs of a list of splits are ordered by [>] as the costs of a
    cost model are: [>] is asymmetric and its negation [<=] transitive. *)
Definition costs_ordered (l : list (BestSplit V)) : Prop :=
  (forall a b, In a l -> In b l ->
     vgt (best_split_cost a) (best_split_cost b) = true ->
     vgt (best_split_cost b) (best_split_cost a) = false) /\
  (forall a b c, In a l -> In b l -> In c l ->
     vgt (best_split_cost a) (best_split_cost b) = false ->
     vgt (best_split_cost b) (best_split_cost c) = false ->
     vgt (best_split_cost a) (best_split_cost c) = false).

(** [best] is the minimum of [l], first encountered wins: the splits met
    before it cost strictly more, the splits met after it do not cost
    less. *)
Definition first_minimum (best : BestSplit V) (l : list (BestSplit V)) : Prop :=
  exists before after,
    l = before ++ best :: after /\
    (forall c, In c before ->
       vgt (best_split_cost c) (best_split_cost best) = true) /\
    (forall c, In c after ->
       vgt (best_split_cost best) (best_split_cost c) = false).

(** A call the source gives a meaning to: a range of more than one item
    inside the index vector, a tree of at least one dimension, items that
    are positions of [bboxes], and a predicate that orders the items of the
    range strictly and weakly along each dimension. *)
Definition valid_call (bboxes : list B) (begin end_ : nat)
    (p : SAHPartitioner V) : Prop :=
  1 < end_ - begin /\
  end_ <= length (m_indices p) /\
  0 < Dimension /\
  Forall (fun idx => idx < length bboxes)
         (window begin (end_ - begin) (m_indices p)) /\
  forall dim, dim < Dimension ->
    strict_weak_on (BboxSortPredicate bboxes dim)
                   (window begin (end_ - begin) (m_indices p)).

End Partitioner.


(** ** A tree of three dimensions over [double] boxes

    The instance the examples below run on. *)

(** IEEE 754 binary64, round to nearest even, after the specification of
    floating-point numbers of the standard library. *)
Definition prec : Z := 53.
Definition emax : Z := 1024.

Definition double_of_Z (z : Z) : spec_float := binary_normalize prec emax z 0 false.

#[export] Instance double_scalar : Scalar spec_float := {
  numeric_max := SFmax_float prec emax;
  value_init := S754_zero false;
  of_size n := double_of_Z (Z.of_nat n);
  vadd := SFadd prec emax;
  vmul := SFmul prec emax;
  vdiv := SFdiv prec emax;
  vgt a b := SFltb b a;
  vle := SFleb
}.

(** Modelled from the spec: the box type is not among the sources.  A box
    of three [double] coordinates with the three capabilities the spec
    lists: reset to the empty state, grow to include another box, half the
    surface area. *)
Record AABB3 : Type := {
  box_min : spec_float * spec_float * spec_float;
  box_max : spec_float * spec_float * spec_float
}.

Definition fmin (a b : spec_float) : spec_float := if SFltb b a then b else a.
Definition fmax (a b : spec_float) : spec_float := if SFltb a b then b else a.

Definition map2_3 (f : spec_float -> spec_float -> spec_float)
    (a b : spec_float * spec_float * spec_float)
    : spec_float * spec_float * spec_float :=
  let '(a0, a1, a2) := a in
  let '(b0, b1, b2) := b in
  (f a0 b0, f a1 b1, f a2 b2).

Definition AABB3_invalidate : AABB3 :=
  let m := SFmax_float prec emax in
  {| box_min := (m, m, m); box_max := (SFopp m, SFopp m, SFopp m) |}.

Definition AABB3_insert (acc rhs : AABB3) : AABB3 :=
  {| box_min := map2_3 fmin (box_min acc) (box_min rhs);
     box_max := map2_3 fmax (box_max acc) (box_max rhs) |}.

Definition AABB3_half_surface_area (b : AABB3) : spec_float :=
  let '(e0, e1, e2) := map2_3 (SFsub prec emax) (box_max b) (box_min b) in
  SFadd prec emax
    (SFadd prec emax (SFmul prec emax e0 e1) (SFmul prec emax e0 e2))
    (SFmul prec emax e1 e2).

#[export] Instance AABB3_box : AABB spec_float AABB3 := {
  invalidate := AABB3_invalidate;
  insert := AABB3_insert;
  half_surface_area := AABB3_half_surface_area
}.

#[export] Instance three_dimensions : TreeDimension := 3.

Definition coordinate (v : spec_float * spec_float * spec_float) (dim : nat)
    : spec_float :=
  let '(v0, v1, v2) := v in
  match dim with 0 => v0 | 1 => v1 | _ => v2 end.

(** Modelled from the spec: bvh_bboxsortpredicate.h is not among the
    sources.  Two items compare by the centroid coordinate
    [(min[d] + max[d]) / 2] of their boxes along the dimension, ties broken
    by item index. *)
Definition centroid (bboxes : list AABB3) (dim idx : nat) : spec_float :=
  let b := nth idx bboxes AABB3_invalidate in
  SFdiv prec emax
    (SFadd prec emax (coordinate (box_min b) dim) (coordinate (box_max b) dim))
    (double_of_Z 2).

Definition centroid_predicate (bboxes : list AABB3) (dim lhs rhs : nat) : bool :=
  let l := centroid bboxes dim lhs in
  let r := centroid bboxes dim rhs in
  SFltb l r || (SFeqb l r && (lhs <? rhs)).

(** Straight insertion, what [std::sort] runs on a short range. *)
Fixpoint insert_sorted (cmp : nat -> nat -> bool) (x : nat) (l : list nat)
    : list nat :=
  match l with
  | [] => [x]
  | y :: l' => if cmp x y then x :: l else y :: insert_sorted cmp x l'
  end.

Fixpoint insertion_sort (cmp : nat -> nat -> bool) (l : list nat) : list nat :=
  match l with
  | [] => []
  | x :: l' => insert_sorted cmp x (insertion_sort cmp l')
  end.

#[export] Instance centroid_sorting : Sorting AABB3 := {
  BboxSortPredicate := centroid_predicate;
  std_sort := insertion_sort
}.

(** A box from integer corner coordinates. *)
Definition box (x0 y0 z0 x1 y1 z1 : Z) : AABB3 :=
  {| box_min := (double_of_Z x0, double_of_Z y0, double_of_Z z0);
     box_max := (double_of_Z x1, double_of_Z y1, double_of_Z z1) |}.

Definition one : spec_float := double_of_Z 1.

(** A partitioner over [size] items, as the builder sets it up. *)
Definition partitioner (max_leaf_size : nat) (traversal intersection : spec_float)
    (size : nat) : SAHPartitioner spec_float :=
  {| m_max_leaf_size := max_leaf_size;
     m_interior_node_traversal_cost := traversal;
     m_triangle_intersection_cost := intersection;
     m_indices := seq 0 size;
     m_left_areas := [] |}.

Definition is_zero (x : spec_float) : bool :=
  match x with S754_zero _ => true | _ => false end.

(** The check of [strict_weak_on], by enumeration. *)
Definition strict_weak_onb (cmp : nat -> nat -> bool) (l : list nat) : bool :=
  forallb (fun a => negb (cmp a a)) l &&
  forallb (fun a => forallb (fun b => forallb (fun c =>
    implb (cmp a b && cmp b c) (cmp a c) &&
    implb (negb (cmp a b) && negb (cmp b a) && negb (cmp b c) && negb (cmp c b))
          (negb (cmp a c) && negb (cmp c a))) l) l) l.

(** The check of [costs_ordered], by enumeration. *)
Definition costs_orderedb {V : Type} {SV : Scalar V} (l : list (BestSplit V))
    : bool :=
  forallb (fun a => forallb (fun b =>
    implb (vgt (best_split_cost a) (best_split_cost b))
          (negb (vgt (best_split_cost b) (best_split_cost a))) &&
    forallb (fun c =>
      implb (negb (vgt (best_split_cost a) (best_split_cost b)) &&
             negb (vgt (best_split_cost b) (best_split_cost c)))
            (negb (vgt (best_split_cost a) (best_split_cost c)))) l) l) l.

(** The box of a whole array, as the builder computes it. *)
Definition bbox_of (bboxes : list AABB3) : AABB3 := accumulate bboxes.

(** Two clusters of two unit boxes each, ten units apart along the first
    dimension. *)
Definition clusters : list AABB3 :=
  [box 0 0 0 1 1 1; box 10 0 0 11 1 1; box 0 1 0 1 2 1; box 10 1 0 11 2 1].

(** Three unit boxes stacked along the last dimension, the highest first. *)
Definition stack : list AABB3 :=
  [box 0 0 3 1 1 4; box 0 0 2 1 1 3; box 0 0 0 1 1 1].

(** Three times the same point. *)
Definition coincident : list AABB3 :=
  [box 1 1 1 1 1 1; box 1 1 1 1 1 1; box 1 1 1 1 1 1].

(** Three boxes of finite corners whose faces have an area beyond the
    largest [double]. *)
Definition wide : Z := (10 ^ 160)%Z.
Definition huge : list AABB3 :=
  [box 0 0 0 wide wide wide;
   box wide wide wide (2 * wide) (2 * wide) (2 * wide);
   box (- wide) 0 0 0 wide wide].

(** ** Boxes that hold the same numbers

    [<] on [double] does not tell [+0] from [-0]: two boxes hold the same
    numbers when their coordinates are equal or zeros of either sign. *)
Definition same_number (x y : spec_float) : Prop :=
  x = y \/ (is_zero x = true /\ is_zero y = true).

Definition same_corner (a b : spec_float * spec_float * spec_float) : Prop :=
  let '(a0, a1, a2) := a in
  let '(b0, b1, b2) := b in
  same_number a0 b0 /\ same_number a1 b1 /\ same_number a2 b2.

Definition same_box (a b : AABB3) : Prop :=
  same_corner (box_min a) (box_min b) /\ same_corner (box_max a) (box_max b).

Definition is_nan (x : spec_float) : bool :=
  match x with S754_nan => true | _ => false end.

(** The place of a number in the order of [<]: sign class, then exponent,
    then mantissa. *)
Definition float_key (x : spec_float) : Z * Z * Z :=
  match x with
  | S754_nan => (3, 0, 0)
  | S754_infinity true => (-2, 0, 0)
  | S754_infinity false => (2, 0, 0)
  | S754_zero _ => (0, 0, 0)
  | S754_finite true m e => (-1, - e, - Z.pos m)
  | S754_finite false m e => (1, e, Z.pos m)
  end%Z.

Definition key_lt (a b : Z * Z * Z) : Prop :=
  let '(a1, a2, a3) := a in
  let '(b1, b2, b3) := b in
  (a1 < b1 \/ (a1 = b1 /\ (a2 < b2 \/ (a2 = b2 /\ a3 < b3))))%Z.

(** The origin as a box, with zeros of one sign. *)
Definition origin (negative : bool) : AABB3 :=
  let z := S754_zero negative in
  {| box_min := (z, z, z); box_max := (z, z, z) |}.

(** Twice the origin: once with [+0], once with [-0]. *)
Definition origins : list AABB3 := [origin false; origin true].

(** A partitioner holding the items in a given order. *)
Definition ordered_partitioner (indices : list nat) : SAHPartitioner spec_float :=
  {| m_max_leaf_size := 1;
     m_interior_node_traversal_cost := one;
     m_triangle_intersection_cost := one;
     m_indices := indices;
     m_left_areas := [] |}.

Definition ten : spec_float := double_of_Z 10.
Definition hundred : spec_float := double_of_Z 100.

(** The partitioner of the builder over the four boxes of [clusters], and
    one that differs by what an earlier call left in its scratch buffer. *)
Definition clusters_partitioner : SAHPartitioner spec_float :=
  partitioner 1 one one 4.

Definition reused_partitioner : SAHPartitioner spec_float :=
  {| m_max_leaf_size := 1;
     m_interior_node_traversal_cost := one;
     m_triangle_intersection_cost := one;
     m_indices := seq 0 4;
     m_left_areas := [ten; hundred; ten; hundred; ten] |}.

(** ** The partitioner seen by its caller

    The tree builder is not among the sources; what it does with a
    partitioner is to call [partition] on ranges of the index vector, one
    call after the other. *)

Section Builder.

Context {V B : Type} {SV : Scalar V} {BB : AABB V B}.
Context {TD : TreeDimension} {SO : Sorting B}.

(** [builds bboxes p p']: a sequence of valid calls of [partition] leads
    from the partitioner [p] to the partitioner [p']. *)
Inductive builds (bboxes : list B)
    : SAHPartitioner V -> SAHPartitioner V -> Prop :=
| builds_done (p : SAHPartitioner V) : builds bboxes p p
| builds_call (p p1 p' : SAHPartitioner V) (begin end_ r : nat) (bbox : B) :
    valid_call bboxes begin end_ p ->
    partition bboxes begin end_ bbox p = Ok (r, p1) ->
    builds bboxes p1 p' ->
    builds bboxes p p'.

(** The offset of the value returned from [begin], and the order the range
    is left in, as functions of the items of the range alone: the two
    things [partition] decides. *)
Definition split_of (bboxes : list B) (bbox : B) (p : SAHPartitioner V)
    (items : list nat) : nat * list nat :=
  let count := length items in
  if count <=? m_max_leaf_size p then (count, items) else
  let scanned := sorted_along bboxes (seq 0 Dimension) items in
  let best := best_candidate (candidates bboxes (seq 0 Dimension) items) in
  if vle (leaf_cost_of p count) (split_cost_of p bbox (best_split_cost best))
  then (count, scanned)
  else (best_split_pivot best,
        if before_last_dimension (best_split_dim best)
        then std_sort (BboxSortPredicate bboxes (best_split_dim best)) scanned
        else scanned).

End Builder.

(** A partitioner over the four boxes of [clusters] whose index vector
    holds [7], the position of no box. *)
Definition stray_partitioner : SAHPartitioner spec_float :=
  {| m_max_leaf_size := 1;
     m_interior_node_traversal_cost := one;
     m_triangle_intersection_cost := one;
     m_indices := [0; 1; 7; 3];
     m_left_areas := [] |}.

(** * Names for new entities in the project explorer

    [get_name_suggestion] of appleseed.studio's projectexplorer.cpp
    proposes, for a new entity, the prefix followed by the number after the
    greatest one carried by the entities of a container. *)

(** [from_string<int>] and [to_string] of foundation/utility/string.h, which
    is not among the sources: [from_string s] is [None] when the call
    throws [ExceptionStringConversionError]. *)
Class StringConversions : Type := {
  from_string : String.string -> option Z;
  to_string : Z -> String.string
}.

Definition int_min : Z := (- 2 ^ 31)%Z.
Definition int_max : Z := (2 ^ 31 - 1)%Z.

(** What is used of the two conversions: [from_string<int>] returns an
    [int], and reads back what [to_string] writes of an [int]. *)
Class IntConversions (SC : StringConversions) : Prop := {
  from_string_is_int : forall s n,
    from_string s = Some n -> (int_min <= n <= int_max)%Z;
  from_to_string : forall n,
    (int_min <= n <= int_max)%Z -> from_string (to_string n) = Some n
}.

Section NameSuggestion.

Import String.
Local Open Scope string_scope.

Context {SC : StringConversions}.

(** [s.substr(pos, n)], which throws [std::out_of_range] when [pos] is past
    the end of [s]. *)
Definition substr (s : string) (pos n : nat) : result string :=
  if (pos <=? length s)%nat then Ok (substring pos n s) else Fault OutOfRange.

(** [s.substr(pos)]. *)
Definition substr_from (s : string) (pos : nat) : result string :=
  substr s pos (length s - pos).

(** One turn of the loop over the entities, on the name of the entity.
    The [catch] clause takes the conversion error only. *)
Definition name_suggestion_body (prefix entity_name : string) (max_number : Z)
    : result Z :=
  entity_name_prefix <- substr entity_name 0 (length prefix) ;;
  if entity_name_prefix =? prefix then
    entity_name_suffix <- substr_from entity_name (length prefix) ;;
    match from_string entity_name_suffix with
    | Some number =>
        if (max_number <? number)%Z then Ok number else Ok max_number
    | None => Ok max_number
    end
  else Ok max_number.

Fixpoint name_suggestion_loop (prefix : string) (entities : list string)
    (max_number : Z) : result Z :=
  match entities with
  | [] => Ok max_number
  | entity_name :: rest =>
      max_number <- name_suggestion_body prefix entity_name max_number ;;
      name_suggestion_loop prefix rest max_number
  end.

(** [get_name_suggestion(prefix, entities)], on the names of the entities
    in the order of the container.  [max_number + 1] is an [int] sum: past
    [int_max] it is out of the range of [int] and has no defined result. *)
Definition get_name_suggestion (prefix : string) (entities : list string)
    : result string :=
  max_number <- name_suggestion_loop prefix entities 0%Z ;;
  if (max_number <? int_max)%Z
  then Ok (prefix ++ to_string (max_number + 1))
  else Fault OutOfRange.

(** The number an entity name carries after the prefix, if any. *)
Definition name_number (prefix entity_name : string) : option Z :=
  if substring 0 (length prefix) entity_name =? prefix
  then from_string
         (substring (length prefix) (length entity_name - length prefix)
            entity_name)
  else None.

(** The greatest number carried, from [m]. *)
Definition greatest_number (prefix : string) (entities : list string) (m : Z)
    : Z :=
  fold_left
    (fun m entity_name =>
       match name_number prefix entity_name with
       | Some number => Z.max m number
       | None => m
       end)
    entities m.

(** The names of a unit test of [get_name_suggestion]. *)
Definition two_assemblies : list string := ["assembly3"; "assembly1"].

End NameSuggestion.

(** The conversions of the examples: decimal notation, within [int]. *)
Definition decimal_from_string (s : String.string) : option Z :=
  match DecimalString.NilZero.int_of_string s with
  | Some d =>
      let n := Z.of_int d in
      if ((int_min <=? n) && (n <=? int_max))%Z then Some n else None
  | None => None
  end.

Definition decimal_to_string (n : Z) : String.string :=
  DecimalString.NilZero.string_of_int (Z.to_int n).

#[export] Instance decimal_conversions : StringConversions := {
  from_string := decimal_from_string;
  to_string := decimal_to_string
}.

(** The check of [valid_call] for the tree of three dimensions over
    [double] boxes, by enumeration. *)
Definition valid_callb (bboxes : list AABB3) (begin end_ : nat)
    (p : SAHPartitioner spec_float) : bool :=
  (1 <? end_ - begin) &&
  (end_ <=? length (m_indices p)) &&
  forallb (fun idx => idx <? length bboxes)
          (window begin (end_ - begin) (m_indices p)) &&
  forallb (fun dim =>
             strict_weak_onb (centroid_predicate bboxes dim)
               (window begin (end_ - begin) (m_indices p)))
          [0; 1; 2].
(** * Properties *)

Unset Implicit Arguments.

(** ** Vectors and loops *)

Lemma vec_get_nth_error {A : Type} (v : list A) (i : nat) (a : A) :
  nth_error v i = Some a -> vec_get v i = Ok a.
Proof. unfold vec_get. intros ->. reflexivity. Qed.

Lemma vec_get_app_middle {A : Type} (pre mid post : list A) (i : nat) (a : A) :
  nth_error mid i = Some a ->
  vec_get (pre ++ mid ++ post) (length pre + i) = Ok a.
Proof.
  intros H. apply vec_get_nth_error.
  rewrite nth_error_app2 by lia.
  replace (length pre + i - length pre) with i by lia.
  rewrite nth_error_app1; [exact H|].
  apply nth_error_Some. congruence.
Qed.

Lemma vec_set_ok {A : Type} (v : list A) (i : nat) (a : A) :
  i < length v ->
  exists v', vec_set v i a = Ok v' /\ length v' = length v /\
    nth_error v' i = Some a /\
    (forall j, j <> i -> nth_error v' j = nth_error v j).
Proof.
  intros Hi. unfold vec_set.
  destruct (Nat.ltb_spec i (length v)) as [_|]; [|lia].
  eexists. split; [reflexivity|].
  assert (Hlen : length (firstn i v) = i) by (rewrite length_firstn; lia).
  repeat split.
  - rewrite length_app. cbn [length]. rewrite Hlen, length_skipn. lia.
  - rewrite nth_error_app2 by lia. rewrite Hlen, Nat.sub_diag. reflexivity.
  - intros j Hj. destruct (Nat.lt_ge_cases j i) as [Hlt|Hge].
    + rewrite nth_error_app1 by lia. rewrite nth_error_firstn.
      destruct (Nat.ltb_spec j i); [reflexivity|lia].
    + rewrite nth_error_app2 by lia. rewrite Hlen.
      destruct (j - i) as [|k] eqn:Hk; [lia|]. cbn [nth_error].
      rewrite nth_error_skipn. f_equal. lia.
Qed.

Lemma for_each_app {S : Type} (l1 l2 : list nat) (body : nat -> S -> result S)
    (s : S) :
  for_each (l1 ++ l2) body s = (s' <- for_each l1 body s ;; for_each l2 body s').
Proof.
  revert s. induction l1 as [|i l1 IH]; intros s; simpl; [reflexivity|].
  destruct (body i s); simpl; [apply IH|reflexivity].
Qed.

(** ** Lists *)

Lemma firstn_succ_nth_error {A : Type} (l : list A) (n : nat) (a : A) :
  nth_error l n = Some a -> firstn (S n) l = firstn n l ++ [a].
Proof.
  revert n. induction l as [|x l IH]; intros [|n] H; simpl in *; try discriminate.
  - congruence.
  - rewrite (IH n H). reflexivity.
Qed.

Lemma skipn_nth_error_cons {A : Type} (l : list A) (n : nat) (a : A) :
  nth_error l n = Some a -> skipn n l = a :: skipn (S n) l.
Proof.
  revert n. induction l as [|x l IH]; intros [|n] H; simpl in *; try discriminate.
  - congruence.
  - exact (IH n H).
Qed.

Lemma window_middle {A : Type} (pre mid post : list A) :
  window (length pre) (length mid) (pre ++ mid ++ post) = mid.
Proof.
  unfold window. rewrite skipn_app, skipn_all, Nat.sub_diag. simpl.
  rewrite firstn_app, firstn_all, Nat.sub_diag. simpl. apply app_nil_r.
Qed.

(** A vector that holds the range [[begin, begin + count)] splits around it. *)
Lemma split_around_window {A : Type} (begin count : nat) (v : list A) :
  begin + count <= length v ->
  v = firstn begin v ++ window begin count v ++ skipn (begin + count) v /\
  length (firstn begin v) = begin /\
  length (window begin count v) = count.
Proof.
  intros H. unfold window. repeat split.
  - rewrite <- (firstn_skipn begin v) at 1. f_equal.
    rewrite <- (firstn_skipn count (skipn begin v)) at 1. f_equal.
    rewrite skipn_skipn. f_equal. lia.
  - rewrite length_firstn. lia.
  - rewrite length_firstn, length_skipn. lia.
Qed.

(** A dimension of the loop is below [Dimension]: a hypothesis [H] on the
    dimensions below [Dimension] holds of the dimensions of [seq 0 n]. *)
Ltac scanned_dimension H :=
  let d := fresh "d" in
  let Hd := fresh "Hd" in
  intros d Hd; apply in_seq in Hd; apply H; lia.

Section Properties.

Context {V B : Type} {SV : Scalar V} {BB : AABB V B}.
Context {TD : TreeDimension} {SO : Sorting B} {SS : StdSort SO}.

(** ** The boxes of a range *)

Lemma length_boxes_of (bboxes : list B) (items : list nat) :
  length (boxes_of bboxes items) = length items.
Proof. apply length_map. Qed.

Lemma nth_error_boxes_of (bboxes : list B) (items : list nat) (i idx : nat) :
  nth_error items i = Some idx ->
  nth_error (boxes_of bboxes items) i = Some (nth idx bboxes invalidate).
Proof. intros H. unfold boxes_of. rewrite nth_error_map, H. reflexivity. Qed.

Lemma vec_get_box (bboxes : list B) (idx : nat) :
  idx < length bboxes -> vec_get bboxes idx = Ok (nth idx bboxes invalidate).
Proof.
  intros H. apply vec_get_nth_error. apply nth_error_nth'. exact H.
Qed.

Lemma accumulate_snoc (bs : list B) (b : B) :
  accumulate (bs ++ [b]) = insert (accumulate bs) b.
Proof. unfold accumulate. rewrite fold_left_app. reflexivity. Qed.

(** The item at position [i] of a range, with its box. *)
Lemma item_in_range (bboxes : list B) (items : list nat) (i : nat) :
  Forall (fun idx => idx < length bboxes) items ->
  i < length items ->
  exists idx, nth_error items i = Some idx /\ idx < length bboxes.
Proof.
  intros Hall Hi.
  destruct (nth_error items i) as [idx|] eqn:E.
  - exists idx. split; [reflexivity|].
    rewrite Forall_forall in Hall. apply Hall. eapply nth_error_In. exact E.
  - apply nth_error_None in E. lia.
Qed.

(** ** The two sweeps *)

(** The left-to-right sweep leaves in slot [j] the half surface area of the
    first [j + 1] boxes, and keeps the size of the scratch buffer. *)
Lemma left_sweep_spec (bboxes : list B) (pre items post : list nat)
    (left_areas : list V) (n : nat) :
  Forall (fun idx => idx < length bboxes) items ->
  n <= length items -> n <= length left_areas ->
  exists left_areas',
    for_each (seq 0 n)
      (left_sweep_body bboxes (length pre) (pre ++ items ++ post))
      (invalidate, left_areas)
    = Ok (accumulate (firstn n (boxes_of bboxes items)), left_areas') /\
    length left_areas' = length left_areas /\
    forall j, j < n ->
      nth_error left_areas' j
      = Some (left_half_area (boxes_of bboxes items) (S j)).
Proof.
  intros Hall. induction n as [|n IH]; intros Hn Ha.
  - exists left_areas. repeat split. intros j Hj. lia.
  - destruct IH as (areas1 & Hrun & Hlen & Hslots); [lia|lia|].
    destruct (item_in_range bboxes items n Hall) as (idx & Hidx & Hlt); [lia|].
    destruct (@vec_set_ok V areas1 n
                (half_surface_area
                   (insert (accumulate (firstn n (boxes_of bboxes items)))
                           (nth idx bboxes invalidate))))
      as (areas2 & Hset & Hlen2 & Hnew & Hold); [lia|].
    exists areas2.
    assert (Hacc : accumulate (firstn (S n) (boxes_of bboxes items))
                   = insert (accumulate (firstn n (boxes_of bboxes items)))
                            (nth idx bboxes invalidate)).
    { rewrite (firstn_succ_nth_error _ _ _ (nth_error_boxes_of bboxes _ _ _ Hidx)).
      apply accumulate_snoc. }
    repeat split.
    + rewrite seq_S, for_each_app, Hrun. cbn [bind for_each Nat.add].
      unfold left_sweep_body.
      rewrite (vec_get_app_middle pre items post n idx Hidx). cbn [bind].
      rewrite (vec_get_box bboxes idx Hlt). cbn [bind].
      rewrite Hset. cbn [bind]. rewrite Hacc. reflexivity.
    + lia.
    + intros j Hj. destruct (Nat.eq_dec j n) as [->|Hne].
      * rewrite Hnew. unfold left_half_area. rewrite Hacc. reflexivity.
      * rewrite (Hold j Hne). apply Hslots. lia.
Qed.

(** The right-to-left sweep, after its first [m] turns: the accumulator
    holds the last [m] boxes, and the best split has met the candidates of
    the pivots [count - 1] down to [count - m]. *)
Lemma right_sweep_spec (bboxes : list B) (pre items post : list nat)
    (left_areas : list V) (dim : nat) (best : BestSplit V) (m : nat) :
  Forall (fun idx => idx < length bboxes) items ->
  (forall j, j < length items - 1 ->
     nth_error left_areas j
     = Some (left_half_area (boxes_of bboxes items) (S j))) ->
  m <= length items - 1 ->
  for_each (rev (seq (length items - m) m))
    (right_sweep_body bboxes (length pre) (length items)
       (pre ++ items ++ post) left_areas dim)
    (invalidate, best)
  = Ok (accumulate (rev (skipn (length items - m) (boxes_of bboxes items))),
        fold_left keep_best
          (map (candidate_at (boxes_of bboxes items) dim)
               (rev (seq (length items - m) m)))
          best).
Proof.
  intros Hall Hslots. induction m as [|m IH]; intros Hm.
  - cbn [seq rev for_each map fold_left]. rewrite Nat.sub_0_r.
    rewrite skipn_all2 by (rewrite length_boxes_of; lia). reflexivity.
  - set (i := length items - S m).
    assert (Hi : length items - m = S i) by lia.
    cbn [seq]. rewrite <- Hi. cbn [rev].
    rewrite for_each_app, IH by lia. cbn [bind for_each].
    rewrite map_app, fold_left_app. cbn [map fold_left].
    destruct (item_in_range bboxes items i Hall) as (idx & Hidx & Hlt); [lia|].
    unfold right_sweep_body.
    rewrite (vec_get_app_middle pre items post i idx Hidx). cbn [bind].
    rewrite (vec_get_box bboxes idx Hlt). cbn [bind].
    rewrite (vec_get_nth_error left_areas (i - 1)
               (left_half_area (boxes_of bboxes items) i)).
    2:{ rewrite Hslots by lia. do 2 f_equal. lia. }
    cbn [bind].
    assert (Hacc : accumulate (rev (skipn i (boxes_of bboxes items)))
                   = insert (accumulate
                               (rev (skipn (length items - m)
                                           (boxes_of bboxes items))))
                            (nth idx bboxes invalidate)).
    { rewrite (skipn_nth_error_cons _ _ _ (nth_error_boxes_of bboxes _ _ _ Hidx)).
      cbn [rev]. rewrite accumulate_snoc, Hi. reflexivity. }
    rewrite <- Hacc.
    set (best' := fold_left keep_best _ best).
    unfold keep_best, candidate_at, candidate_cost, right_half_area.
    cbn [best_split_cost]. rewrite length_boxes_of.
    destruct (vgt _ _); reflexivity.
Qed.

(** ** Sorting a range *)

Lemma strict_weak_on_perm (cmp : nat -> nat -> bool) (l l' : list nat) :
  Permutation l l' -> strict_weak_on cmp l -> strict_weak_on cmp l'.
Proof.
  intros HP (Hirr & Htr & Heq).
  assert (Hin : forall a, In a l' -> In a l).
  { intros a Ha. apply (Permutation_in a (Permutation_sym HP) Ha). }
  repeat split.
  - intros a Ha. apply Hirr; auto.
  - intros a b c Ha Hb Hc. apply Htr; auto.
  - eapply (Heq a b c); eauto.
  - eapply (Heq a b c); eauto.
Qed.

Lemma std_sort_length (cmp : nat -> nat -> bool) (l : list nat) :
  strict_weak_on cmp l -> length (std_sort cmp l) = length l.
Proof.
  intros H. symmetry. apply Permutation_length, std_sort_permutes, H.
Qed.

Lemma std_sort_Forall (P : nat -> Prop) (cmp : nat -> nat -> bool)
    (l : list nat) :
  strict_weak_on cmp l -> Forall P l -> Forall P (std_sort cmp l).
Proof.
  intros H HP. eapply Permutation_Forall; [|exact HP].
  apply std_sort_permutes, H.
Qed.

Lemma sort_range_spec (cmp : nat -> nat -> bool) (pre items post : list nat) :
  sort_range cmp (length pre) (length items) (pre ++ items ++ post)
  = Ok (pre ++ std_sort cmp items ++ post).
Proof.
  unfold sort_range.
  destruct (Nat.leb_spec (length pre + length items)
                         (length (pre ++ items ++ post))) as [_|H].
  - rewrite window_middle.
    rewrite firstn_app, firstn_all, Nat.sub_diag. cbn [firstn].
    rewrite app_nil_r.
    replace (skipn (length pre + length items) (pre ++ items ++ post))
      with post; [reflexivity|].
    rewrite (Nat.add_comm (length pre)), <- skipn_skipn.
    rewrite skipn_app, skipn_all, Nat.sub_diag. cbn [skipn app].
    rewrite skipn_app, skipn_all, Nat.sub_diag. reflexivity.
  - rewrite !length_app in H. lia.
Qed.

(** ** One dimension, then all of them *)

Lemma dimension_body_spec (bboxes : list B) (pre items post : list nat)
    (left_areas : list V) (best : BestSplit V) (dim : nat) :
  Forall (fun idx => idx < length bboxes) items ->
  1 <= length items ->
  length items - 1 <= length left_areas ->
  strict_weak_on (BboxSortPredicate bboxes dim) items ->
  exists left_areas',
    dimension_body bboxes (length pre) (length items) dim
      (pre ++ items ++ post, left_areas, best)
    = Ok (pre ++ std_sort (BboxSortPredicate bboxes dim) items ++ post,
          left_areas',
          fold_left keep_best
            (candidates_of_dimension
               (boxes_of bboxes (std_sort (BboxSortPredicate bboxes dim) items))
               dim)
            best) /\
    length left_areas' = length left_areas.
Proof.
  intros Hall Hne Hareas Hswo.
  set (items' := std_sort (BboxSortPredicate bboxes dim) items).
  assert (Hlen : length items' = length items) by (apply std_sort_length, Hswo).
  assert (Hall' : Forall (fun idx => idx < length bboxes) items')
    by (apply std_sort_Forall; assumption).
  destruct (left_sweep_spec bboxes pre items' post left_areas
              (length items - 1) Hall') as (areas1 & Hleft & Hlen1 & Hslots);
    [lia|lia|].
  exists areas1. split; [|exact Hlen1].
  unfold dimension_body. rewrite sort_range_spec. cbn [bind]. fold items'.
  rewrite Hleft. cbn [bind].
  pose proof (right_sweep_spec bboxes pre items' post areas1 dim best
                (length items' - 1) Hall') as Hright.
  rewrite Hlen in Hright.
  replace (length items - (length items - 1)) with 1 in Hright by lia.
  rewrite Hright; [| |lia].
  - cbn [bind]. unfold candidates_of_dimension, pivots.
    rewrite length_boxes_of, Hlen. reflexivity.
  - intros j Hj. apply Hslots. exact Hj.
Qed.

Lemma dimensions_loop_spec (bboxes : list B) (pre post : list nat)
    (dims : list nat) :
  forall (items : list nat) (left_areas : list V) (best : BestSplit V),
  Forall (fun idx => idx < length bboxes) items ->
  1 <= length items ->
  length items - 1 <= length left_areas ->
  (forall dim, In dim dims ->
     strict_weak_on (BboxSortPredicate bboxes dim) items) ->
  exists left_areas',
    for_each dims (dimension_body bboxes (length pre) (length items))
      (pre ++ items ++ post, left_areas, best)
    = Ok (pre ++ sorted_along bboxes dims items ++ post,
          left_areas',
          fold_left keep_best (candidates bboxes dims items) best) /\
    length left_areas' = length left_areas.
Proof.
  induction dims as [|dim dims IH]; intros items left_areas best Hall Hne Ha Hswo.
  - exists left_areas. split; reflexivity.
  - assert (Hd : strict_weak_on (BboxSortPredicate bboxes dim) items)
      by (apply Hswo; left; reflexivity).
    destruct (dimension_body_spec bboxes pre items post left_areas best dim
                Hall Hne Ha Hd) as (areas1 & Hbody & Hlen1).
    set (items' := std_sort (BboxSortPredicate bboxes dim) items) in *.
    assert (Hlen : length items' = length items) by (apply std_sort_length, Hd).
    destruct (IH items' areas1
                (fold_left keep_best
                   (candidates_of_dimension (boxes_of bboxes items') dim) best))
      as (areas2 & Hrest & Hlen2).
    + apply std_sort_Forall; assumption.
    + lia.
    + lia.
    + intros d Hin. eapply strict_weak_on_perm.
      * apply std_sort_permutes, Hd.
      * apply Hswo. right. exact Hin.
    + exists areas2. split; [|lia].
      cbn [for_each]. rewrite Hbody. cbn [bind].
      rewrite Hlen in Hrest. rewrite Hrest.
      cbn [sorted_along candidates fold_left].
      rewrite fold_left_app. reflexivity.
Qed.

(** ** The best candidate *)

Lemma keep_best_cases (best c : BestSplit V) :
  keep_best best c = best \/ keep_best best c = c.
Proof. unfold keep_best. destruct (vgt _ _); auto. Qed.

Lemma fold_keep_best_In (cs : list (BestSplit V)) (best : BestSplit V) :
  fold_left keep_best cs best = best \/ In (fold_left keep_best cs best) cs.
Proof.
  revert best. induction cs as [|c cs IH]; intros best; cbn [fold_left].
  - left. reflexivity.
  - destruct (IH (keep_best best c)) as [E|Hin].
    + rewrite E. destruct (keep_best_cases best c) as [->| ->].
      * left. reflexivity.
      * right. left. reflexivity.
    + right. right. exact Hin.
Qed.

Lemma sorted_along_perm (bboxes : list B) (dims : list nat) :
  forall items,
  (forall dim, In dim dims ->
     strict_weak_on (BboxSortPredicate bboxes dim) items) ->
  Permutation items (sorted_along bboxes dims items).
Proof.
  induction dims as [|dim dims IH]; intros items Hswo; cbn [sorted_along fold_left].
  - apply Permutation_refl.
  - assert (Hd : strict_weak_on (BboxSortPredicate bboxes dim) items)
      by (apply Hswo; left; reflexivity).
    eapply Permutation_trans; [apply std_sort_permutes, Hd|].
    apply IH. intros d Hin. eapply strict_weak_on_perm.
    + apply std_sort_permutes, Hd.
    + apply Hswo. right. exact Hin.
Qed.

(** A candidate is a split of a scanned dimension at a pivot that leaves
    both sides of the range non empty. *)
Lemma candidates_In (bboxes : list B) (dims : list nat) :
  forall items c,
  (forall dim, In dim dims ->
     strict_weak_on (BboxSortPredicate bboxes dim) items) ->
  In c (candidates bboxes dims items) ->
  In (best_split_dim c) dims /\
  1 <= best_split_pivot c <= length items - 1.
Proof.
  induction dims as [|dim dims IH]; intros items c Hswo Hin; cbn [candidates] in Hin.
  - destruct Hin.
  - assert (Hd : strict_weak_on (BboxSortPredicate bboxes dim) items)
      by (apply Hswo; left; reflexivity).
    apply in_app_or in Hin. destruct Hin as [Hin|Hin].
    + unfold candidates_of_dimension, pivots in Hin.
      apply in_map_iff in Hin. destruct Hin as (i & <- & Hi).
      apply in_rev, in_seq in Hi.
      rewrite length_boxes_of, (std_sort_length _ _ Hd) in Hi.
      cbn. split; [left; reflexivity|lia].
    + apply IH in Hin.
      * destruct Hin as (Hdim & Hpiv).
        rewrite (std_sort_length _ _ Hd) in Hpiv.
        split; [right; exact Hdim|exact Hpiv].
      * intros d Hd'. eapply strict_weak_on_perm.
        -- apply std_sort_permutes, Hd.
        -- apply Hswo. right. exact Hd'.
Qed.

(** The best candidate is the split never made, of pivot [0], or one of
    the candidates. *)
Lemma best_candidate_cases (cs : list (BestSplit V)) :
  best_candidate cs = no_split \/ In (best_candidate cs) cs.
Proof. apply fold_keep_best_In. Qed.

Lemma best_candidate_bounds (bboxes : list B) (items : list nat) :
  (forall dim, dim < Dimension ->
     strict_weak_on (BboxSortPredicate bboxes dim) items) ->
  0 < Dimension ->
  let best := best_candidate (candidates bboxes (seq 0 Dimension) items) in
  best_split_dim best < Dimension /\
  best_split_pivot best <= length items - 1.
Proof.
  intros Hswo Hdim best.
  destruct (best_candidate_cases (candidates bboxes (seq 0 Dimension) items))
    as [E|Hin]; fold best in E || fold best in Hin.
  - rewrite E. cbn. lia.
  - apply candidates_In in Hin.
    + destruct Hin as (Hd & Hp). apply in_seq in Hd. lia.
    + scanned_dimension Hswo.
Qed.

(** ** The scratch buffer *)

Lemma length_resize {A : Type} (n : nat) (d : A) (v : list A) :
  length (resize n d v) = n.
Proof.
  unfold resize. rewrite length_app, length_firstn, repeat_length. lia.
Qed.

Lemma ensure_minimum_size_length (v : list V) (n : nat) :
  n <= length (ensure_minimum_size v n).
Proof.
  unfold ensure_minimum_size.
  destruct (Nat.ltb_spec (length v) n); [rewrite length_resize|]; lia.
Qed.

(** ** A run of [partition] past the leaf-size test

    On a valid call over more items than a leaf may hold, [partition]
    returns, and what it returns is told by the candidates of the cost
    model: the decision by the best candidate, the order of the range by
    the sorts it went through. *)
Lemma partition_run (bboxes : list B) (begin end_ : nat) (bbox : B)
    (p : SAHPartitioner V) :
  valid_call bboxes begin end_ p ->
  m_max_leaf_size p < end_ - begin ->
  let count := end_ - begin in
  let items := window begin count (m_indices p) in
  let pre := firstn begin (m_indices p) in
  let post := skipn end_ (m_indices p) in
  let scanned := sorted_along bboxes (seq 0 Dimension) items in
  let best := best_candidate (candidates bboxes (seq 0 Dimension) items) in
  exists left_areas',
    partition bboxes begin end_ bbox p
    = if vle (leaf_cost_of p count)
             (split_cost_of p bbox (best_split_cost best))
      then Ok (end_, with_arrays p (pre ++ scanned ++ post) left_areas')
      else Ok (begin + best_split_pivot best,
               with_arrays p
                 (pre
                  ++ (if before_last_dimension (best_split_dim best)
                      then std_sort
                             (BboxSortPredicate bboxes (best_split_dim best))
                             scanned
                      else scanned)
                  ++ post)
                 left_areas').
Proof.
  intros (Hcount & Hend & Hdim & Hall & Hswo) Hleaf count items pre post.
  destruct (split_around_window begin count (m_indices p))
    as (Hsplit & Hpre & Hitems); [unfold count; lia|].
  replace (begin + count) with end_ in Hsplit by (unfold count; lia).
  fold items pre post in Hsplit, Hpre, Hitems, Hall, Hswo.
  assert (Hswo' : forall dim, In dim (seq 0 Dimension) ->
                    strict_weak_on (BboxSortPredicate bboxes dim) items).
  { scanned_dimension Hswo. }
  intros scanned best.
  assert (Hscanned : Permutation items scanned)
    by (apply sorted_along_perm, Hswo').
  assert (Hlen : length scanned = count)
    by (rewrite <- (Permutation_length Hscanned); exact Hitems).
  destruct (best_candidate_bounds bboxes items Hswo Hdim) as (Hbd & Hbp).
  fold best in Hbd, Hbp.
  destruct (dimensions_loop_spec bboxes pre post (seq 0 Dimension) items
              (ensure_minimum_size (m_left_areas p) (count - 1)) no_split)
    as (areas' & Hloop & _); [exact Hall|lia| |exact Hswo'|].
  { rewrite Hitems. apply ensure_minimum_size_length. }
  fold scanned in Hloop. fold (best_candidate (candidates bboxes (seq 0 Dimension) items)) in Hloop.
  fold best in Hloop.
  exists areas'.
  unfold partition.
  destruct (Nat.ltb_spec end_ begin) as [|_]; [lia|].
  fold count.
  destruct (Nat.leb_spec count 1) as [|_]; [lia|].
  destruct (Nat.leb_spec count (m_max_leaf_size p)) as [|_]; [unfold count in *; lia|].
  unfold find_best_split. fold no_split.
  clearbody items pre post.
  rewrite Hsplit at 1. rewrite <- Hpre at 1. rewrite <- Hitems at 1.
  rewrite Hloop. cbn [bind].
  destruct (vle _ _); [reflexivity|].
  destruct (Nat.ltb_spec (begin + best_split_pivot best) end_) as [_|];
    [|unfold count in *; lia].
  destruct (before_last_dimension (best_split_dim best)).
  - rewrite <- Hpre at 1. rewrite <- Hlen at 1.
    rewrite sort_range_spec. reflexivity.
  - reflexivity.
Qed.

(** ** Every valid call returns *)

Lemma with_arrays_same (p : SAHPartitioner V) :
  with_arrays p (m_indices p) (m_left_areas p) = p.
Proof. destruct p. reflexivity. Qed.

Lemma partition_leaf_size (bboxes : list B) (begin end_ : nat) (bbox : B)
    (p : SAHPartitioner V) :
  1 < end_ - begin ->
  end_ - begin <= m_max_leaf_size p ->
  partition bboxes begin end_ bbox p = Ok (end_, p).
Proof.
  intros Hcount Hleaf. unfold partition.
  destruct (Nat.ltb_spec end_ begin) as [|_]; [lia|].
  destruct (Nat.leb_spec (end_ - begin) 1) as [|_]; [lia|].
  destruct (Nat.leb_spec (end_ - begin) (m_max_leaf_size p)) as [_|]; [|lia].
  reflexivity.
Qed.

(** What a valid call leaves: the value returned is inside the range or its
    end, the index vector differs from the one before inside the range
    only, and there by a permutation. *)
Lemma partition_outcome (bboxes : list B) (begin end_ : nat) (bbox : B)
    (p : SAHPartitioner V) :
  valid_call bboxes begin end_ p ->
  exists r items' left_areas',
    partition bboxes begin end_ bbox p
    = Ok (r, with_arrays p
               (firstn begin (m_indices p) ++ items'
                  ++ skipn end_ (m_indices p))
               left_areas') /\
    Permutation (window begin (end_ - begin) (m_indices p)) items' /\
    begin <= r <= end_.
Proof.
  intros Hvalid.
  destruct (Nat.le_gt_cases (end_ - begin) (m_max_leaf_size p)) as [Hleaf|Hleaf].
  - destruct Hvalid as (Hcount & Hend & _).
    exists end_, (window begin (end_ - begin) (m_indices p)), (m_left_areas p).
    split; [|split; [apply Permutation_refl|lia]].
    rewrite partition_leaf_size by assumption.
    destruct (split_around_window begin (end_ - begin) (m_indices p))
      as (Hsplit & _); [lia|].
    replace (begin + (end_ - begin)) with end_ in Hsplit by lia.
    rewrite <- Hsplit, with_arrays_same. reflexivity.
  - destruct (partition_run bboxes begin end_ bbox p Hvalid Hleaf)
      as (areas' & Hrun).
    destruct Hvalid as (Hcount & Hend & Hdim & Hall & Hswo).
    set (items := window begin (end_ - begin) (m_indices p)) in *.
    assert (Hswo' : forall dim, In dim (seq 0 Dimension) ->
                      strict_weak_on (BboxSortPredicate bboxes dim) items).
    { scanned_dimension Hswo. }
    pose proof (sorted_along_perm bboxes (seq 0 Dimension) items Hswo')
      as Hscanned.
    destruct (best_candidate_bounds bboxes items Hswo Hdim) as (Hbd & Hbp).
    assert (Hitems : length items = end_ - begin).
    { apply (split_around_window begin (end_ - begin) (m_indices p)). lia. }
    rewrite Hrun.
    destruct (vle _ _).
    + eexists _, _, _. split; [reflexivity|]. split; [exact Hscanned|lia].
    + eexists _, _, _. split; [reflexivity|]. split; [|lia].
      destruct (before_last_dimension _); [|exact Hscanned].
      eapply Permutation_trans; [exact Hscanned|].
      apply std_sort_permutes.
      eapply strict_weak_on_perm; [exact Hscanned|]. apply Hswo. exact Hbd.
Qed.

(** ** [initialize] *)

Lemma identity_loop (n : nat) (v : list nat) :
  n <= length v ->
  exists v',
    for_each (seq 0 n) (fun i ind => vec_set ind i i) v = Ok v' /\
    length v' = length v /\
    forall j, j < n -> nth_error v' j = Some j.
Proof.
  induction n as [|n IH]; intros Hn.
  - exists v. repeat split. intros j Hj. lia.
  - destruct IH as (v1 & Hrun & Hlen & Hset); [lia|].
    destruct (vec_set_ok v1 n n) as (v2 & Hv2 & Hlen2 & Hnew & Hold); [lia|].
    exists v2. repeat split.
    + rewrite seq_S, for_each_app, Hrun. cbn [bind for_each Nat.add].
      rewrite Hv2. reflexivity.
    + lia.
    + intros j Hj. destruct (Nat.eq_dec j n) as [->|Hne]; [exact Hnew|].
      rewrite (Hold j Hne). apply Hset. lia.
Qed.

Lemma initialize_spec (size : nat) (p : SAHPartitioner V) :
  initialize size p = Ok (with_arrays p (seq 0 size) (m_left_areas p)).
Proof.
  unfold initialize.
  destruct (identity_loop size (resize size 0 (m_indices p)))
    as (v' & Hrun & Hlen & Hset); [rewrite length_resize; lia|].
  rewrite Hrun. cbn [bind]. do 2 f_equal.
  rewrite length_resize in Hlen.
  apply nth_error_ext. intros j. rewrite nth_error_seq.
  destruct (Nat.ltb_spec j size) as [Hj|Hj].
  - apply Hset, Hj.
  - apply nth_error_None. lia.
Qed.

(** ** The two sides of a returned pivot *)

Lemma window_left {A : Type} (pre mid post : list A) (k : nat) :
  k <= length mid ->
  window (length pre) k (pre ++ mid ++ post) = firstn k mid.
Proof.
  intros Hk. unfold window.
  rewrite skipn_app, skipn_all, Nat.sub_diag. cbn [skipn app].
  rewrite firstn_app. replace (k - length mid) with 0 by lia.
  cbn [firstn]. apply app_nil_r.
Qed.

Lemma window_right {A : Type} (pre mid post : list A) (k : nat) :
  k <= length mid ->
  window (length pre + k) (length mid - k) (pre ++ mid ++ post) = skipn k mid.
Proof.
  intros Hk. unfold window.
  rewrite (Nat.add_comm (length pre)), <- skipn_skipn.
  rewrite skipn_app, skipn_all, Nat.sub_diag. cbn [skipn app].
  rewrite skipn_app. replace (k - length mid) with 0 by lia. cbn [skipn].
  rewrite firstn_app, length_skipn, Nat.sub_diag. cbn [firstn].
  rewrite app_nil_r. apply firstn_all2. rewrite length_skipn. lia.
Qed.

(** The index vector after a valid call, with the sizes of its three
    parts. *)
Lemma partition_indices (bboxes : list B) (begin end_ : nat) (bbox : B)
    (p : SAHPartitioner V) :
  valid_call bboxes begin end_ p ->
  exists r pre items items' post left_areas',
    partition bboxes begin end_ bbox p
    = Ok (r, with_arrays p (pre ++ items' ++ post) left_areas') /\
    m_indices p = pre ++ items ++ post /\
    items = window begin (end_ - begin) (m_indices p) /\
    length pre = begin /\
    length items' = end_ - begin /\
    Permutation items items' /\
    begin <= r <= end_.
Proof.
  intros Hvalid.
  destruct (partition_outcome bboxes begin end_ bbox p Hvalid)
    as (r & items' & areas' & Hrun & Hperm & Hr).
  destruct Hvalid as (Hcount & Hend & _).
  destruct (split_around_window begin (end_ - begin) (m_indices p))
    as (Hsplit & Hpre & Hitems); [lia|].
  replace (begin + (end_ - begin)) with end_ in Hsplit by lia.
  exists r, (firstn begin (m_indices p)),
    (window begin (end_ - begin) (m_indices p)), items',
    (skipn end_ (m_indices p)), areas'.
  repeat split; try assumption; try lia.
  rewrite <- (Permutation_length Hperm). exact Hitems.
Qed.

(** ** The claims on the index vector *)

(** C5.  A range of more than one item and of at most [m_max_leaf_size]
    items makes [partition] return [end] at once, whatever the boxes, the
    box of the range and the contents of the vectors: the partitioner after
    the call is the partitioner before it, no range has been sorted and no
    slot of the scratch buffer written. *)
Theorem partition_small_range_is_leaf (bboxes : list B) (begin end_ : nat)
    (bbox : B) (p : SAHPartitioner V) :
  1 < end_ - begin ->
  end_ - begin <= m_max_leaf_size p ->
  partition bboxes begin end_ bbox p = Ok (end_, p).
Proof. apply partition_leaf_size. Qed.

(** C4.  A valid call of [partition] returns and leaves every entry of the
    index vector outside [[begin, end)] as it was, with the size of the
    vector and the three constants of the partitioner.  The box array is an
    argument of the embedding that no function returns a new version of: it
    is the [const] reference of the source. *)
Theorem partition_frame (bboxes : list B) (begin end_ : nat) (bbox : B)
    (p : SAHPartitioner V) :
  valid_call bboxes begin end_ p ->
  exists r p',
    partition bboxes begin end_ bbox p = Ok (r, p') /\
    m_max_leaf_size p' = m_max_leaf_size p /\
    m_interior_node_traversal_cost p' = m_interior_node_traversal_cost p /\
    m_triangle_intersection_cost p' = m_triangle_intersection_cost p /\
    length (m_indices p') = length (m_indices p) /\
    forall i, i < begin \/ end_ <= i ->
      nth_error (m_indices p') i = nth_error (m_indices p) i.
Proof.
  intros Hvalid.
  destruct (partition_indices bboxes begin end_ bbox p Hvalid)
    as (r & pre & items & items' & post & areas'
        & Hrun & Hsplit & _ & Hpre & Hlen' & Hperm & _).
  assert (Hlen : length items = end_ - begin)
    by (rewrite (Permutation_length Hperm); exact Hlen').
  destruct Hvalid as (Hcount & _).
  eexists r, _. split; [exact Hrun|].
  cbn [with_arrays m_max_leaf_size m_interior_node_traversal_cost
       m_triangle_intersection_cost m_indices].
  repeat split.
  - rewrite Hsplit, !length_app. lia.
  - intros i [Hi|Hi]; rewrite Hsplit.
    + rewrite !nth_error_app1 by lia. reflexivity.
    + rewrite !(nth_error_app2 pre) by lia.
      rewrite !nth_error_app2 by lia. f_equal. lia.
Qed.

(** C3.  [initialize(size)] sets the index vector to the identity
    permutation of [[0, size)], and a valid call of [partition] returns a
    pivot [r] such that the items of [[begin, r)] followed by those of
    [[r, end)] are a permutation of the items [[begin, end)] held before
    the call: no item is lost, none is duplicated, the two sides share no
    item when the range had none twice, and an index vector that was a
    permutation of [[0, N)] still is one. *)
Theorem indices_remain_a_permutation :
  (forall (size : nat) (p : SAHPartitioner V),
     exists p', initialize size p = Ok p' /\
                get_item_ordering p' = seq 0 size) /\
  (forall (bboxes : list B) (begin end_ : nat) (bbox : B)
          (p : SAHPartitioner V),
     valid_call bboxes begin end_ p ->
     exists r p',
       partition bboxes begin end_ bbox p = Ok (r, p') /\
       let before := window begin (end_ - begin) (m_indices p) in
       let left := window begin (r - begin) (m_indices p') in
       let right := window r (end_ - r) (m_indices p') in
       Permutation before (left ++ right) /\
       (NoDup before -> forall i, In i left -> ~ In i right) /\
       forall N, Permutation (seq 0 N) (m_indices p) ->
                 Permutation (seq 0 N) (m_indices p')).
Proof.
  split.
  - intros size p. eexists. split; [apply initialize_spec|reflexivity].
  - intros bboxes begin end_ bbox p Hvalid.
    destruct (partition_indices bboxes begin end_ bbox p Hvalid)
      as (r & pre & items & items' & post & areas'
          & Hrun & Hsplit & Hitems & Hpre & Hlen' & Hperm & Hr).
    eexists r, _. split; [exact Hrun|].
    cbn [with_arrays m_indices]. rewrite <- Hitems.
    assert (Hleft : window begin (r - begin) (pre ++ items' ++ post)
                    = firstn (r - begin) items').
    { rewrite <- Hpre. apply window_left. lia. }
    assert (Hright : window r (end_ - r) (pre ++ items' ++ post)
                     = skipn (r - begin) items').
    { replace r with (length pre + (r - begin)) at 1 by lia.
      replace (end_ - r) with (length items' - (r - begin)) by lia.
      apply window_right. lia. }
    rewrite Hleft, Hright, firstn_skipn.
    split; [exact Hperm|]. split.
    + intros Hnodup i Hl Hrt.
      assert (Hnd : NoDup (firstn (r - begin) items'
                             ++ skipn (r - begin) items')).
      { rewrite firstn_skipn. apply (Permutation_NoDup Hperm Hnodup). }
      apply NoDup_app_remove_l in Hnd as Hnd'.
      revert Hl Hrt Hnd. generalize (firstn (r - begin) items') as l.
      generalize (skipn (r - begin) items') as l'.
      intros l' l Hl Hrt Hnd.
      apply in_split in Hl. destruct Hl as (l1 & l2 & ->).
      rewrite <- app_assoc in Hnd. cbn [app] in Hnd.
      apply NoDup_remove_2 in Hnd. apply Hnd.
      rewrite app_assoc. apply in_or_app. right. exact Hrt.
    + intros N HN. eapply Permutation_trans; [exact HN|].
      rewrite Hsplit. apply Permutation_app_head, Permutation_app_tail.
      exact Hperm.
Qed.

(** ** The sweep over the dimensions, on the arrays of a partitioner *)

Lemma find_best_split_spec (bboxes : list B) (begin end_ : nat)
    (p : SAHPartitioner V) (left_areas : list V) :
  valid_call bboxes begin end_ p ->
  end_ - begin - 1 <= length left_areas ->
  let items := window begin (end_ - begin) (m_indices p) in
  exists left_areas',
    find_best_split bboxes begin (end_ - begin) (m_indices p) left_areas
    = Ok (firstn begin (m_indices p)
            ++ sorted_along bboxes (seq 0 Dimension) items
            ++ skipn end_ (m_indices p),
          left_areas',
          best_candidate (candidates bboxes (seq 0 Dimension) items)).
Proof.
  intros (Hcount & Hend & Hdim & Hall & Hswo) Hareas items.
  destruct (split_around_window begin (end_ - begin) (m_indices p))
    as (Hsplit & Hpre & Hitems); [lia|].
  replace (begin + (end_ - begin)) with end_ in Hsplit by lia.
  fold items in Hsplit, Hitems, Hall, Hswo.
  destruct (dimensions_loop_spec bboxes (firstn begin (m_indices p))
              (skipn end_ (m_indices p)) (seq 0 Dimension) items
              left_areas no_split)
    as (areas' & Hloop & _); [exact Hall|lia|lia| |].
  { scanned_dimension Hswo. }
  exists areas'. unfold find_best_split. fold no_split.
  rewrite Hpre, Hitems, <- Hsplit in Hloop. exact Hloop.
Qed.

(** ** Sorted ranges *)

Lemma StronglySorted_app_order {A : Type} (R : A -> A -> Prop)
    (l1 l2 : list A) :
  StronglySorted R (l1 ++ l2) ->
  forall x y, In x l1 -> In y l2 -> R x y.
Proof.
  induction l1 as [|a l1 IH]; intros Hs x y Hx Hy; [destruct Hx|].
  cbn [app] in Hs. apply StronglySorted_inv in Hs. destruct Hs as (Hs & Ha).
  destruct Hx as [<-|Hx].
  - rewrite Forall_forall in Ha. apply Ha, in_or_app. right. exact Hy.
  - apply (IH Hs x y Hx Hy).
Qed.

(** After the loop over the dimensions the range is in the order the sort
    along the last dimension left. *)
Lemma sorted_along_last (bboxes : list B) (items : list nat) :
  0 < Dimension ->
  (forall dim, dim < Dimension ->
     strict_weak_on (BboxSortPredicate bboxes dim) items) ->
  is_sorted (BboxSortPredicate bboxes (Dimension - 1))
            (sorted_along bboxes (seq 0 Dimension) items).
Proof.
  intros Hdim Hswo.
  destruct Dimension as [|d] eqn:E; [lia|].
  replace (S d - 1) with d by lia.
  rewrite seq_S. unfold sorted_along. rewrite fold_left_app. cbn [fold_left Nat.add].
  apply std_sort_sorts.
  eapply strict_weak_on_perm.
  - apply (sorted_along_perm bboxes (seq 0 d) items).
    intros k Hk. apply in_seq in Hk. apply Hswo. lia.
  - apply Hswo. lia.
Qed.

(** A best candidate that left the pivot at [0] met no candidate cheaper
    than [numeric_max]. *)
Lemma fold_keep_best_pivot (cs : list (BestSplit V)) :
  (forall c, In c cs -> 1 <= best_split_pivot c) ->
  forall best,
  1 <= best_split_pivot best \/
  (exists c, In c cs /\
     vgt (best_split_cost best) (best_split_cost c) = true) ->
  1 <= best_split_pivot (fold_left keep_best cs best).
Proof.
  induction cs as [|c cs IH]; intros Hpiv best Hcase; cbn [fold_left].
  - destruct Hcase as [H|(c & [] & _)]. exact H.
  - apply IH; [intros c' Hc'; apply Hpiv; right; exact Hc'|].
    assert (Hc : 1 <= best_split_pivot c) by (apply Hpiv; left; reflexivity).
    unfold keep_best.
    destruct (vgt (best_split_cost best) (best_split_cost c)) eqn:E.
    + left. exact Hc.
    + destruct Hcase as [H|(c0 & [<-|Hin] & Hgt)].
      * left. exact H.
      * congruence.
      * right. exists c0. split; assumption.
Qed.

(** ** The decision of a run past the leaf-size test *)

Lemma partition_decision (bboxes : list B) (begin end_ : nat) (bbox : B)
    (p : SAHPartitioner V) :
  valid_call bboxes begin end_ p ->
  m_max_leaf_size p < end_ - begin ->
  let count := end_ - begin in
  let items := window begin count (m_indices p) in
  let scanned := sorted_along bboxes (seq 0 Dimension) items in
  let best := best_candidate (candidates bboxes (seq 0 Dimension) items) in
  exists r p',
    partition bboxes begin end_ bbox p = Ok (r, p') /\
    length (window begin count (m_indices p')) = count /\
    if vle (leaf_cost_of p count) (split_cost_of p bbox (best_split_cost best))
    then r = end_ /\ window begin count (m_indices p') = scanned
    else r = begin + best_split_pivot best /\
         r < end_ /\
         window begin count (m_indices p')
         = if before_last_dimension (best_split_dim best)
           then std_sort (BboxSortPredicate bboxes (best_split_dim best)) scanned
           else scanned.
Proof.
  intros Hvalid Hleaf count items scanned best.
  destruct (partition_run bboxes begin end_ bbox p Hvalid Hleaf)
    as (areas' & Hrun).
  fold count items scanned best in Hrun.
  destruct Hvalid as (Hcount & Hend & Hdim & Hall & Hswo).
  fold count items in Hall, Hswo.
  destruct (split_around_window begin count (m_indices p))
    as (_ & Hpre & Hitems); [unfold count; lia|].
  fold items in Hitems.
  assert (Hscanned : Permutation items scanned).
  { apply sorted_along_perm. scanned_dimension Hswo. }
  destruct (best_candidate_bounds bboxes items Hswo Hdim) as (Hbd & Hbp).
  fold best in Hbd, Hbp.
  assert (Hlen : length scanned = count)
    by (rewrite <- (Permutation_length Hscanned); exact Hitems).
  assert (Hresort :
            length (std_sort (BboxSortPredicate bboxes (best_split_dim best))
                             scanned) = count).
  { rewrite std_sort_length; [exact Hlen|].
    eapply strict_weak_on_perm; [exact Hscanned|]. apply Hswo, Hbd. }
  assert (Hwin : forall mid, length mid = count ->
            window begin count
              (firstn begin (m_indices p) ++ mid ++ skipn end_ (m_indices p))
            = mid).
  { intros mid Hmid. rewrite <- Hpre at 1. rewrite <- Hmid.
    apply window_middle. }
  destruct (vle _ _).
  - eexists _, _. split; [exact Hrun|]. cbn [with_arrays m_indices].
    rewrite (Hwin scanned Hlen). auto.
  - eexists _, _. split; [exact Hrun|]. cbn [with_arrays m_indices].
    destruct (before_last_dimension _).
    + rewrite (Hwin _ Hresort). repeat split; [exact Hresort|unfold count in *; lia].
    + rewrite (Hwin scanned Hlen). repeat split; [exact Hlen|unfold count in *; lia].
Qed.

(** ** The claims on the value returned *)

(** The value returned by a valid call of [partition] is some [r] with
    [begin <= r <= end], and [begin < r] as soon as one candidate split
    costs less than [numeric_max]: the pivot starts at [0] and moves only
    to a candidate that is cheaper than the best cost so far, which starts
    at [numeric_max]. *)
Theorem partition_return_value_bounds (bboxes : list B) (begin end_ : nat)
    (bbox : B) (p : SAHPartitioner V) :
  valid_call bboxes begin end_ p ->
  exists r p',
    partition bboxes begin end_ bbox p = Ok (r, p') /\
    begin <= r <= end_ /\
    ((exists c,
        In c (candidates bboxes (seq 0 Dimension)
                (window begin (end_ - begin) (m_indices p))) /\
        vgt numeric_max (best_split_cost c) = true) ->
     begin < r).
Proof.
  intros Hvalid.
  destruct (Nat.le_gt_cases (end_ - begin) (m_max_leaf_size p)) as [Hleaf|Hleaf].
  - destruct Hvalid as (Hcount & _).
    exists end_, p. split; [apply partition_leaf_size; assumption|].
    split; lia.
  - destruct (partition_decision bboxes begin end_ bbox p Hvalid Hleaf)
      as (r & p' & Hrun & _ & Hcase).
    exists r, p'. split; [exact Hrun|].
    destruct Hvalid as (Hcount & Hend & Hdim & Hall & Hswo).
    destruct (vle _ _).
    + destruct Hcase as (-> & _). split; lia.
    + destruct Hcase as (-> & Hlt & _). split; [lia|].
      intros Hex.
      assert (1 <= best_split_pivot
                     (best_candidate
                        (candidates bboxes (seq 0 Dimension)
                           (window begin (end_ - begin) (m_indices p))))).
      { unfold best_candidate. apply fold_keep_best_pivot.
        - intros c Hc. apply candidates_In in Hc; [lia|].
          scanned_dimension Hswo.
        - right. exact Hex. }
      lia.
Qed.

(** C9.  When a valid call of [partition] returns a pivot [r < end], the
    winning dimension being the one of the best candidate, [r] is [begin]
    plus the pivot of that candidate and the range [[begin, end)] is at
    return sorted by the predicate of the winning dimension (sorted again
    along it when it is not the last dimension, left as the sweep along
    the last dimension sorted it otherwise): no item of [[r, end)] is
    ordered before an item of [[begin, r)]. *)
Theorem partition_split_is_sorted (bboxes : list B) (begin end_ : nat)
    (bbox : B) (p : SAHPartitioner V) :
  valid_call bboxes begin end_ p ->
  exists r p',
    partition bboxes begin end_ bbox p = Ok (r, p') /\
    (r < end_ ->
     let best :=
       best_candidate
         (candidates bboxes (seq 0 Dimension)
            (window begin (end_ - begin) (m_indices p))) in
     let predicate := BboxSortPredicate bboxes (best_split_dim best) in
     let scanned :=
       sorted_along bboxes (seq 0 Dimension)
         (window begin (end_ - begin) (m_indices p)) in
     r = begin + best_split_pivot best /\
     window begin (end_ - begin) (m_indices p')
     = (if before_last_dimension (best_split_dim best)
        then std_sort predicate scanned else scanned) /\
     is_sorted predicate (window begin (end_ - begin) (m_indices p')) /\
     forall x y,
       In x (window begin (r - begin) (m_indices p')) ->
       In y (window r (end_ - r) (m_indices p')) ->
       predicate y x = false).
Proof.
  intros Hvalid.
  destruct (Nat.le_gt_cases (end_ - begin) (m_max_leaf_size p)) as [Hleaf|Hleaf].
  { destruct Hvalid as (Hcount & _).
    exists end_, p. split; [apply partition_leaf_size; assumption|lia]. }
  destruct (partition_decision bboxes begin end_ bbox p Hvalid Hleaf)
    as (r & p' & Hrun & Hlen & Hcase).
  exists r, p'. split; [exact Hrun|]. intros Hr best predicate scanned.
  destruct Hvalid as (Hcount & Hend & Hdim & Hall & Hswo).
  set (items := window begin (end_ - begin) (m_indices p)) in *.
  fold best in Hcase.
  destruct (vle _ _); [destruct Hcase; lia|].
  destruct Hcase as (Hpivot & _ & Hwin).
  destruct (best_candidate_bounds bboxes items Hswo Hdim) as (Hbd & _).
  fold best in Hbd.
  assert (Hscanned : Permutation items
                       (sorted_along bboxes (seq 0 Dimension) items)).
  { apply sorted_along_perm. scanned_dimension Hswo. }
  assert (Hsorted : is_sorted predicate
                      (window begin (end_ - begin) (m_indices p'))).
  { rewrite Hwin. unfold before_last_dimension.
    destruct (Nat.eqb_spec Dimension 0) as [|_]; [lia|].
    destruct (Nat.ltb_spec (best_split_dim best) (Dimension - 1)) as [_|Hlast].
    - apply std_sort_sorts.
      eapply strict_weak_on_perm; [exact Hscanned|]. apply Hswo, Hbd.
    - unfold predicate. replace (best_split_dim best) with (Dimension - 1) by lia.
      apply sorted_along_last; assumption. }
  split; [exact Hpivot|]. split; [exact Hwin|]. split; [exact Hsorted|].
  intros x y Hx Hy.
  assert (Hparts : window begin (end_ - begin) (m_indices p')
                   = window begin (r - begin) (m_indices p')
                       ++ window r (end_ - r) (m_indices p')).
  { unfold window.
    rewrite <- (firstn_skipn (r - begin)
                  (firstn (end_ - begin) (skipn begin (m_indices p')))).
    rewrite firstn_firstn, Nat.min_l by lia. f_equal.
    rewrite skipn_firstn_comm, skipn_skipn. f_equal; [lia|f_equal; lia]. }
  rewrite Hparts in Hsorted.
  apply (StronglySorted_app_order _ _ _ Hsorted x y Hx Hy).
Qed.

(** C10.  When a valid call of [partition] on more items than a leaf may
    hold returns [end], the range [[begin, end)] is at return in the order
    the sorts along the dimensions [0] to [Dimension - 1] left in turn,
    sorted by the predicate of the last dimension; it holds the items in
    their order before the call only if that order was already the result
    of these sorts. *)
Theorem partition_leaf_keeps_last_sort (bboxes : list B) (begin end_ : nat)
    (bbox : B) (p : SAHPartitioner V) :
  valid_call bboxes begin end_ p ->
  m_max_leaf_size p < end_ - begin ->
  exists r p',
    partition bboxes begin end_ bbox p = Ok (r, p') /\
    (r = end_ ->
     let before := window begin (end_ - begin) (m_indices p) in
     let after := window begin (end_ - begin) (m_indices p') in
     after = sorted_along bboxes (seq 0 Dimension) before /\
     is_sorted (BboxSortPredicate bboxes (Dimension - 1)) after /\
     (after = before ->
      is_sorted (BboxSortPredicate bboxes (Dimension - 1)) before)).
Proof.
  intros Hvalid Hleaf.
  destruct (partition_decision bboxes begin end_ bbox p Hvalid Hleaf)
    as (r & p' & Hrun & _ & Hcase).
  exists r, p'. split; [exact Hrun|]. intros Hr before after.
  destruct Hvalid as (Hcount & Hend & Hdim & Hall & Hswo).
  destruct (vle _ _); [|destruct Hcase as (_ & Hlt & _); lia].
  destruct Hcase as (_ & Hwin). fold before in Hwin. fold after in Hwin.
  assert (Hsorted : is_sorted (BboxSortPredicate bboxes (Dimension - 1)) after).
  { rewrite Hwin. apply sorted_along_last; assumption. }
  split; [exact Hwin|]. split; [exact Hsorted|].
  intros <-. exact Hsorted.
Qed.

(** C8.  Two partitioners with the same constants and the same index
    vector, whatever their scratch buffers hold, given the same boxes, the
    same range and the same box of the range on a valid call: the sweeps
    over the dimensions end with the same order of the range and the same
    best split (cost, dimension and pivot), and the two calls of
    [partition] return the same value and leave the same index vector. *)
Theorem partition_deterministic (bboxes : list B) (begin end_ : nat)
    (bbox : B) (p1 p2 : SAHPartitioner V) :
  valid_call bboxes begin end_ p1 ->
  m_max_leaf_size p1 = m_max_leaf_size p2 ->
  m_interior_node_traversal_cost p1 = m_interior_node_traversal_cost p2 ->
  m_triangle_intersection_cost p1 = m_triangle_intersection_cost p2 ->
  m_indices p1 = m_indices p2 ->
  (exists indices areas1 areas2 best,
     find_best_split bboxes begin (end_ - begin) (m_indices p1)
       (ensure_minimum_size (m_left_areas p1) (end_ - begin - 1))
     = Ok (indices, areas1, best) /\
     find_best_split bboxes begin (end_ - begin) (m_indices p2)
       (ensure_minimum_size (m_left_areas p2) (end_ - begin - 1))
     = Ok (indices, areas2, best)) /\
  (exists r p1' p2',
     partition bboxes begin end_ bbox p1 = Ok (r, p1') /\
     partition bboxes begin end_ bbox p2 = Ok (r, p2') /\
     m_indices p1' = m_indices p2').
Proof.
  intros Hvalid Hmax Htrav Hisect Hind.
  assert (Hvalid2 : valid_call bboxes begin end_ p2).
  { unfold valid_call in *. rewrite <- Hind. exact Hvalid. }
  split.
  - destruct (find_best_split_spec bboxes begin end_ p1
                (ensure_minimum_size (m_left_areas p1) (end_ - begin - 1)) Hvalid)
      as (a1 & H1); [apply ensure_minimum_size_length|].
    destruct (find_best_split_spec bboxes begin end_ p2
                (ensure_minimum_size (m_left_areas p2) (end_ - begin - 1)) Hvalid2)
      as (a2 & H2); [apply ensure_minimum_size_length|].
    eexists _, a1, a2, _. split; [exact H1|].
    rewrite H2, Hind. reflexivity.
  - destruct (Nat.le_gt_cases (end_ - begin) (m_max_leaf_size p1)) as [Hleaf|Hleaf].
    + destruct Hvalid as (Hcount & _).
      exists end_, p1, p2. repeat split; try assumption.
      * apply partition_leaf_size; assumption.
      * apply partition_leaf_size; [assumption|lia].
    + destruct (partition_run bboxes begin end_ bbox p1 Hvalid Hleaf)
        as (a1 & H1).
      destruct (partition_run bboxes begin end_ bbox p2 Hvalid2) as (a2 & H2);
        [lia|].
      unfold leaf_cost_of, split_cost_of in H1, H2.
      rewrite <- Hind, <- Htrav, <- Hisect in H2.
      destruct (vle _ _).
      * eexists _, _, _. split; [exact H1|]. split; [exact H2|]. reflexivity.
      * eexists _, _, _. split; [exact H1|]. split; [exact H2|]. reflexivity.
Qed.

(** ** The best candidate is a minimum *)

Lemma costs_ordered_incl (l l' : list (BestSplit V)) :
  incl l' l -> costs_ordered l -> costs_ordered l'.
Proof.
  intros Hincl (Hasym & Htrans). split.
  - intros a b Ha Hb. apply Hasym; apply Hincl; assumption.
  - intros a b c Ha Hb Hc. apply Htrans; apply Hincl; assumption.
Qed.

(** With ordered costs, [a > b] passes to what is not below [a] and to what
    [b] is not below. *)
Lemma costs_gt_le (l : list (BestSplit V)) (a b c : BestSplit V) :
  costs_ordered l -> In a l -> In b l -> In c l ->
  vgt (best_split_cost a) (best_split_cost b) = true ->
  vgt (best_split_cost a) (best_split_cost c) = false ->
  vgt (best_split_cost c) (best_split_cost b) = true.
Proof.
  intros (_ & Htrans) Ha Hb Hc Hab Hac.
  destruct (vgt (best_split_cost c) (best_split_cost b)) eqn:E; [reflexivity|].
  rewrite (Htrans a c b Ha Hc Hb Hac E) in Hab. discriminate.
Qed.

Lemma costs_gt_trans (l : list (BestSplit V)) (a b c : BestSplit V) :
  costs_ordered l -> In a l -> In b l -> In c l ->
  vgt (best_split_cost a) (best_split_cost b) = true ->
  vgt (best_split_cost b) (best_split_cost c) = true ->
  vgt (best_split_cost a) (best_split_cost c) = true.
Proof.
  intros Hord Ha Hb Hc Hab Hbc.
  destruct (vgt (best_split_cost a) (best_split_cost c)) eqn:E; [reflexivity|].
  pose proof (costs_gt_le l a b c Hord Ha Hb Hc Hab E) as Hcb.
  destruct Hord as (Hasym & _).
  rewrite (Hasym c b Hc Hb Hcb) in Hbc. discriminate.
Qed.

Lemma fold_keep_best_first_minimum (cs : list (BestSplit V)) :
  forall start,
  costs_ordered (start :: cs) ->
  first_minimum (fold_left keep_best cs start) (start :: cs).
Proof.
  induction cs as [|c cs IH]; intros start Hord; cbn [fold_left].
  - exists [], []. repeat split; intros c [].
  - unfold keep_best at 2.
    destruct (vgt (best_split_cost start) (best_split_cost c)) eqn:E.
    + destruct (IH c) as (before & after & Hsplit & Hbefore & Hafter).
      { eapply costs_ordered_incl; [|exact Hord]. apply incl_tl, incl_refl. }
      remember (fold_left keep_best cs c) as best eqn:Hb. clear Hb.
      exists (start :: before), after. split; [cbn [app]; f_equal; exact Hsplit|].
      split; [|exact Hafter].
      intros x [<-|Hx]; [|apply Hbefore, Hx].
      destruct before as [|c' before]; cbn [app] in Hsplit.
      * injection Hsplit as <- _. exact E.
      * injection Hsplit as <- Hcs.
        apply (costs_gt_trans (start :: c :: cs) start c); try exact Hord;
          try exact E; try (left; reflexivity); try (right; left; reflexivity).
        -- right. right. rewrite Hcs. apply in_or_app. right. left. reflexivity.
        -- apply Hbefore. left. reflexivity.
    + destruct (IH start) as (before & after & Hsplit & Hbefore & Hafter).
      { eapply costs_ordered_incl; [|exact Hord].
        intros x [<-|Hx]; [left; reflexivity|right; right; exact Hx]. }
      remember (fold_left keep_best cs start) as best eqn:Hb. clear Hb.
      destruct before as [|s before]; cbn [app] in Hsplit.
      * injection Hsplit as Hbest Hcs.
        exists [], (c :: after). rewrite <- Hbest at 1. split.
        -- cbn [app]. subst after. reflexivity.
        -- split; [intros x []|].
           intros x [<-|Hx]; [rewrite <- Hbest; exact E|apply Hafter, Hx].
      * injection Hsplit as <- Hcs.
        exists (start :: c :: before), after. split.
        -- cbn [app]. rewrite Hcs. reflexivity.
        -- split; [|exact Hafter].
           intros x [<-|[<-|Hx]].
           ++ apply Hbefore. left. reflexivity.
           ++ apply (costs_gt_le (start :: c :: cs) start); try exact Hord;
                try exact E; try (left; reflexivity);
                try (right; left; reflexivity).
              ** right. right. rewrite Hcs. apply in_or_app. right. left.
                 reflexivity.
              ** apply Hbefore. left. reflexivity.
           ++ apply Hbefore. right. exact Hx.
Qed.

(** C7, as the code has it.  On a valid call over more items than a leaf
    may hold, [partition] returns [end] exactly when
    [count * intersection_cost
       <= traversal_cost + best_split_cost / half_surface_area(bbox)
                             * intersection_cost],
    where the best split is the running minimum, from the cost
    [numeric_max], of the candidates
    [left_half_area(i) * i + right_half_area(i) * (count - i)] of the
    dimensions [0] to [Dimension - 1] and the pivots [count - 1] down to
    [1] of the range sorted along the dimension; with ordered costs it is
    the minimum of [numeric_max] followed by the candidates, the first
    encountered winning. *)
Theorem partition_leaf_decision (bboxes : list B) (begin end_ : nat)
    (bbox : B) (p : SAHPartitioner V) :
  valid_call bboxes begin end_ p ->
  m_max_leaf_size p < end_ - begin ->
  let count := end_ - begin in
  let cs :=
    candidates bboxes (seq 0 Dimension) (window begin count (m_indices p)) in
  let best := best_candidate cs in
  exists r p',
    partition bboxes begin end_ bbox p = Ok (r, p') /\
    (r = end_ <->
     vle (leaf_cost_of p count) (split_cost_of p bbox (best_split_cost best))
     = true) /\
    (costs_ordered (no_split :: cs) -> first_minimum best (no_split :: cs)).
Proof.
  intros Hvalid Hleaf count cs best.
  destruct (partition_decision bboxes begin end_ bbox p Hvalid Hleaf)
    as (r & p' & Hrun & _ & Hcase).
  fold count cs best in Hcase.
  exists r, p'. split; [exact Hrun|]. split.
  - destruct (vle _ _).
    + destruct Hcase as (-> & _). split; reflexivity.
    + destruct Hcase as (_ & Hlt & _). split; [lia|discriminate].
  - apply fold_keep_best_first_minimum.
Qed.

(** ** [compute_bbox] *)

Lemma compute_bbox_loop (bboxes : list B) (pre items post : list nat)
    (n : nat) :
  Forall (fun idx => idx < length bboxes) items ->
  n <= length items ->
  for_each (seq (length pre) n)
    (fun i bbox =>
       idx <- vec_get (pre ++ items ++ post) i ;;
       b <- vec_get bboxes idx ;;
       Ok (insert bbox b))
    invalidate
  = Ok (accumulate (firstn n (boxes_of bboxes items))).
Proof.
  intros Hall. induction n as [|n IH]; intros Hn; [reflexivity|].
  destruct (item_in_range bboxes items n Hall) as (idx & Hidx & Hlt); [lia|].
  rewrite seq_S, for_each_app, IH by lia. cbn [bind for_each].
  rewrite (vec_get_app_middle pre items post n idx Hidx). cbn [bind].
  rewrite (vec_get_box bboxes idx Hlt). cbn [bind].
  rewrite (firstn_succ_nth_error _ _ _ (nth_error_boxes_of bboxes _ _ _ Hidx)).
  rewrite accumulate_snoc. reflexivity.
Qed.

Lemma compute_bbox_spec (bboxes : list B) (begin end_ : nat)
    (p : SAHPartitioner V) :
  end_ <= length (m_indices p) ->
  Forall (fun idx => idx < length bboxes)
         (window begin (end_ - begin) (m_indices p)) ->
  compute_bbox bboxes begin end_ p
  = Ok (accumulate
          (boxes_of bboxes (window begin (end_ - begin) (m_indices p)))).
Proof.
  intros Hend Hall. unfold compute_bbox.
  destruct (Nat.eq_dec (end_ - begin) 0) as [E|E].
  - rewrite E. reflexivity.
  - destruct (split_around_window begin (end_ - begin) (m_indices p))
      as (Hsplit & Hpre & Hitems); [lia|].
    set (items := window begin (end_ - begin) (m_indices p)) in *.
    rewrite Hsplit. rewrite <- Hpre at 1. rewrite <- Hitems at 1.
    rewrite compute_bbox_loop by (assumption || lia).
    rewrite firstn_all2 by (rewrite length_boxes_of; lia). reflexivity.
Qed.

(** Folding [insert] over two orders of the same boxes, for a box type
    whose [insert] commutes up to a relation [R] that it respects. *)
Lemma fold_insert_related (R : B -> B -> Prop) (bs : list B) :
  (forall acc acc' b, R acc acc' -> R (insert acc b) (insert acc' b)) ->
  forall acc acc', R acc acc' ->
  R (fold_left insert bs acc) (fold_left insert bs acc').
Proof.
  intros Hrespects. induction bs as [|b bs IH]; intros acc acc' HR;
    cbn [fold_left].
  - exact HR.
  - apply IH, Hrespects, HR.
Qed.

Lemma fold_insert_permutation (R : B -> B -> Prop) (bs bs' : list B) :
  (forall a, R a a) ->
  (forall a b c, R a b -> R b c -> R a c) ->
  (forall acc acc' b, R acc acc' -> R (insert acc b) (insert acc' b)) ->
  (forall acc a b, R (insert (insert acc a) b) (insert (insert acc b) a)) ->
  Permutation bs bs' ->
  forall acc, R (fold_left insert bs acc) (fold_left insert bs' acc).
Proof.
  intros Hrefl Htrans Hrespects Hcomm HP.
  induction HP as [|b l l' _ IH|a b l|l l' l'' _ IH1 _ IH2];
    intros acc; cbn [fold_left].
  - apply Hrefl.
  - apply IH.
  - apply fold_insert_related; [exact Hrespects|apply Hcomm].
  - eapply Htrans; [apply IH1|apply IH2].
Qed.

(** The boxes of two index vectors that hold the same items in
    [[begin, end)], in any two orders. *)
Lemma compute_bbox_permutation (R : B -> B -> Prop) (bboxes : list B)
    (begin end_ : nat) (p1 p2 : SAHPartitioner V) :
  (forall a, R a a) ->
  (forall a b c, R a b -> R b c -> R a c) ->
  (forall acc acc' b, R acc acc' -> R (insert acc b) (insert acc' b)) ->
  (forall acc a b, R (insert (insert acc a) b) (insert (insert acc b) a)) ->
  end_ <= length (m_indices p1) ->
  end_ <= length (m_indices p2) ->
  Forall (fun idx => idx < length bboxes)
         (window begin (end_ - begin) (m_indices p1)) ->
  Permutation (window begin (end_ - begin) (m_indices p1))
              (window begin (end_ - begin) (m_indices p2)) ->
  exists bbox1 bbox2,
    compute_bbox bboxes begin end_ p1 = Ok bbox1 /\
    compute_bbox bboxes begin end_ p2 = Ok bbox2 /\
    R bbox1 bbox2.
Proof.
  intros Hrefl Htrans Hrespects Hcomm Hend1 Hend2 Hall HP.
  eexists _, _. split; [apply compute_bbox_spec; assumption|].
  split; [apply compute_bbox_spec;
          [assumption|apply (Permutation_Forall HP Hall)]|].
  unfold accumulate. apply fold_insert_permutation; try assumption.
  unfold boxes_of. apply Permutation_map, HP.
Qed.

End Properties.

(** ** Ranges of zero area, over [double] *)

Section DoublePartitioner.

Context {B : Type} {BB : AABB spec_float B}.
Context {TD : TreeDimension} {SO : Sorting B} {SS : StdSort SO}.

Lemma double_zero_by_zero (a b : spec_float) :
  is_zero a = true -> is_zero b = true -> SFdiv prec emax a b = S754_nan.
Proof. destruct a, b; try discriminate; reflexivity. Qed.

Lemma double_nan_times (y : spec_float) : SFmul prec emax S754_nan y = S754_nan.
Proof. destruct y; reflexivity. Qed.

Lemma double_plus_nan (x : spec_float) : SFadd prec emax x S754_nan = S754_nan.
Proof. destruct x; reflexivity. Qed.

Lemma double_le_nan (x : spec_float) : SFleb x S754_nan = false.
Proof. destruct x as [| | |[] ? ?]; try destruct s; reflexivity. Qed.

(** C2, as the code has it.  On a valid call over more items than a leaf
    may hold, with a box of the range of zero half surface area and a best
    split of zero cost, the division of the two is not a number, so is the
    cost of the split, the test [leaf_cost <= split_cost] fails and
    [partition] returns the pivot of the best split, before [end]: the
    range is split, not made a leaf. *)
Theorem partition_zero_area_is_split (bboxes : list B) (begin end_ : nat)
    (bbox : B) (p : SAHPartitioner spec_float) :
  valid_call bboxes begin end_ p ->
  m_max_leaf_size p < end_ - begin ->
  let best :=
    best_candidate
      (candidates bboxes (seq 0 Dimension)
         (window begin (end_ - begin) (m_indices p))) in
  is_zero (half_surface_area bbox) = true ->
  is_zero (best_split_cost best) = true ->
  split_cost_of p bbox (best_split_cost best) = S754_nan /\
  exists p',
    partition bboxes begin end_ bbox p
    = Ok (begin + best_split_pivot best, p') /\
    begin + best_split_pivot best < end_.
Proof.
  intros Hvalid Hleaf best Harea Hcost.
  assert (Hnan : split_cost_of p bbox (best_split_cost best) = S754_nan).
  { unfold split_cost_of. cbn [vadd vmul vdiv double_scalar].
    rewrite (double_zero_by_zero _ _ Hcost Harea).
    rewrite double_nan_times. apply double_plus_nan. }
  split; [exact Hnan|].
  destruct (partition_decision bboxes begin end_ bbox p Hvalid Hleaf)
    as (r & p' & Hrun & _ & Hcase).
  fold best in Hcase. rewrite Hnan in Hcase.
  cbn [vle double_scalar] in Hcase. rewrite double_le_nan in Hcase.
  destruct Hcase as (-> & Hlt & _).
  exists p'. split; [exact Hrun|exact Hlt].
Qed.

End DoublePartitioner.

(** ** The example tree *)

(** *** Straight insertion sorts *)

Lemma insert_sorted_perm (cmp : nat -> nat -> bool) (x : nat) (l : list nat) :
  Permutation (x :: l) (insert_sorted cmp x l).
Proof.
  induction l as [|y l IH]; cbn [insert_sorted]; [apply Permutation_refl|].
  destruct (cmp x y); [apply Permutation_refl|].
  eapply Permutation_trans; [apply perm_swap|]. apply perm_skip, IH.
Qed.

Lemma insertion_sort_perm (cmp : nat -> nat -> bool) (l : list nat) :
  Permutation l (insertion_sort cmp l).
Proof.
  induction l as [|x l IH]; cbn [insertion_sort]; [apply perm_nil|].
  eapply Permutation_trans; [apply perm_skip, IH|apply insert_sorted_perm].
Qed.

Lemma insert_sorted_sorted (cmp : nat -> nat -> bool) (universe : list nat)
    (x : nat) (l : list nat) :
  strict_weak_on cmp universe ->
  In x universe -> incl l universe ->
  is_sorted cmp l -> is_sorted cmp (insert_sorted cmp x l).
Proof.
  intros (Hirr & Htrans & _) Hx. unfold is_sorted.
  induction l as [|y l IH]; intros Hincl Hs; cbn [insert_sorted].
  - constructor; constructor.
  - assert (Hy : In y universe) by (apply Hincl; left; reflexivity).
    assert (Hl : incl l universe) by (intros z Hz; apply Hincl; right; exact Hz).
    apply StronglySorted_inv in Hs. destruct Hs as (Hs & Hall).
    destruct (cmp x y) eqn:E.
    + constructor; [constructor; assumption|].
      constructor.
      * destruct (cmp y x) eqn:E'; [|reflexivity].
        rewrite <- (Hirr x Hx). symmetry. apply (Htrans x y x); assumption.
      * rewrite Forall_forall in Hall |- *. intros z Hz.
        destruct (cmp z x) eqn:E'; [|reflexivity].
        rewrite <- (Hall z Hz). symmetry.
        apply (Htrans z x y); auto.
    + constructor; [apply IH; assumption|].
      apply (Permutation_Forall (insert_sorted_perm cmp x l)).
      constructor; assumption.
Qed.

Lemma insertion_sort_sorted (cmp : nat -> nat -> bool) (universe l : list nat) :
  strict_weak_on cmp universe -> incl l universe ->
  is_sorted cmp (insertion_sort cmp l).
Proof.
  intros Hswo. induction l as [|x l IH]; intros Hincl; cbn [insertion_sort].
  - constructor.
  - apply (insert_sorted_sorted cmp universe); try assumption.
    + apply Hincl. left. reflexivity.
    + intros z Hz. apply Hincl. right.
      apply (Permutation_in z (Permutation_sym (insertion_sort_perm cmp l)) Hz).
    + apply IH. intros z Hz. apply Hincl. right. exact Hz.
Qed.

#[export] Instance insertion_sort_std : StdSort centroid_sorting.
Proof.
  split.
  - intros cmp l _. apply insertion_sort_perm.
  - intros cmp l Hswo. apply (insertion_sort_sorted cmp l l Hswo), incl_refl.
Qed.

(** *** The checks by enumeration are sound *)

Lemma strict_weak_onb_sound (cmp : nat -> nat -> bool) (l : list nat) :
  strict_weak_onb cmp l = true -> strict_weak_on cmp l.
Proof.
  unfold strict_weak_onb. rewrite andb_true_iff, !forallb_forall.
  intros (Hirr & Hall).
  assert (H3 : forall a b c, In a l -> In b l -> In c l ->
            implb (cmp a b && cmp b c) (cmp a c) &&
            implb (negb (cmp a b) && negb (cmp b a)
                   && negb (cmp b c) && negb (cmp c b))
                  (negb (cmp a c) && negb (cmp c a)) = true).
  { intros a b c Ha Hb Hc. specialize (Hall a Ha).
    rewrite forallb_forall in Hall. specialize (Hall b Hb).
    rewrite forallb_forall in Hall. exact (Hall c Hc). }
  repeat split.
  - intros a Ha. specialize (Hirr a Ha). destruct (cmp a a); [discriminate|reflexivity].
  - intros a b c Ha Hb Hc Hab Hbc. specialize (H3 a b c Ha Hb Hc).
    rewrite Hab, Hbc in H3. destruct (cmp a c); [reflexivity|discriminate].
  - specialize (H3 a b c H H0 H1). rewrite H2, H4, H5, H6 in H3.
    destruct (cmp a c); [discriminate|reflexivity].
  - specialize (H3 a b c H H0 H1). rewrite H2, H4, H5, H6 in H3.
    destruct (cmp a c), (cmp c a); try discriminate; reflexivity.
Qed.

Lemma costs_orderedb_sound {V : Type} {SV : Scalar V} (l : list (BestSplit V)) :
  costs_orderedb l = true -> costs_ordered l.
Proof.
  unfold costs_orderedb. rewrite forallb_forall. intros Hall.
  assert (H2 : forall a b, In a l -> In b l ->
            implb (vgt (best_split_cost a) (best_split_cost b))
                  (negb (vgt (best_split_cost b) (best_split_cost a))) = true /\
            forall c, In c l ->
              implb (negb (vgt (best_split_cost a) (best_split_cost b)) &&
                     negb (vgt (best_split_cost b) (best_split_cost c)))
                    (negb (vgt (best_split_cost a) (best_split_cost c))) = true).
  { intros a b Ha Hb. specialize (Hall a Ha).
    rewrite forallb_forall in Hall. specialize (Hall b Hb).
    rewrite andb_true_iff, forallb_forall in Hall. exact Hall. }
  split.
  - intros a b Ha Hb Hab. destruct (H2 a b Ha Hb) as (Hasym & _).
    rewrite Hab in Hasym.
    destruct (vgt (best_split_cost b) (best_split_cost a));
      [discriminate|reflexivity].
  - intros a b c Ha Hb Hc Hab Hbc. destruct (H2 a b Ha Hb) as (_ & Htr).
    specialize (Htr c Hc). rewrite Hab, Hbc in Htr.
    destruct (vgt (best_split_cost a) (best_split_cost c));
      [discriminate|reflexivity].
Qed.

(** A call over a whole array of boxes, from the identity permutation, is
    valid when the predicate passes the check along the three dimensions. *)
Lemma whole_range_valid (bboxes : list AABB3) (max_leaf_size : nat)
    (traversal intersection : spec_float) :
  1 < length bboxes ->
  forallb (fun dim =>
             strict_weak_onb (centroid_predicate bboxes dim)
                             (seq 0 (length bboxes)))
          [0; 1; 2] = true ->
  valid_call bboxes 0 (length bboxes)
    (partitioner max_leaf_size traversal intersection (length bboxes)).
Proof.
  intros Hlen Hcheck. unfold valid_call.
  cbn [partitioner m_indices]. rewrite Nat.sub_0_r.
  assert (Hwin : window 0 (length bboxes) (seq 0 (length bboxes))
                 = seq 0 (length bboxes)).
  { unfold window. cbn [skipn]. apply firstn_all2. rewrite length_seq. lia. }
  rewrite Hwin. split; [|split; [|split; [|split]]].
  - exact Hlen.
  - rewrite length_seq. lia.
  - unfold Dimension, three_dimensions. lia.
  - apply Forall_forall. intros i Hi. apply in_seq in Hi. lia.
  - intros dim Hdim. apply strict_weak_onb_sound.
    rewrite forallb_forall in Hcheck. apply Hcheck.
    unfold Dimension, three_dimensions in Hdim.
    destruct dim as [|[|[|dim]]]; cbn; auto. lia.
Qed.

(** *** The example calls are valid *)

Lemma clusters_valid (max_leaf_size : nat) (traversal : spec_float) :
  valid_call clusters 0 4 (partitioner max_leaf_size traversal one 4).
Proof.
  apply (whole_range_valid clusters max_leaf_size traversal one).
  - cbn. lia.
  - vm_compute. reflexivity.
Qed.

Lemma stack_valid (traversal : spec_float) :
  valid_call stack 0 3 (partitioner 1 traversal one 3).
Proof.
  apply (whole_range_valid stack 1 traversal one).
  - cbn. lia.
  - vm_compute. reflexivity.
Qed.

Lemma coincident_valid :
  valid_call coincident 0 3 (partitioner 1 one one 3).
Proof.
  apply (whole_range_valid coincident 1 one one).
  - cbn. lia.
  - vm_compute. reflexivity.
Qed.

Lemma huge_valid (traversal : spec_float) :
  valid_call huge 0 3 (partitioner 1 traversal one 3).
Proof.
  apply (whole_range_valid huge 1 traversal one).
  - cbn. lia.
  - vm_compute. reflexivity.
Qed.

(** ** The order of [double] and the sign of zero *)

Lemma SFltb_key (x y : spec_float) :
  is_nan x = false -> is_nan y = false ->
  (SFltb x y = true <-> key_lt (float_key x) (float_key y)).
Proof.
  destruct x as [[]|[]| |[] m e], y as [[]|[]| |[] m' e']; try discriminate;
    intros _ _; unfold SFltb, SFcompare, float_key, key_lt;
    try (split; [intros E; try discriminate E; lia
                |intros E; try reflexivity; lia]).
  - rewrite Pos.compare_cont_spec. cbn [Pos.switch_Eq].
    destruct (Z.compare_spec e e'), (Pos.compare_spec m m'); cbn [CompOpp];
      split; intros E; try discriminate E; try reflexivity; lia.
  - rewrite Pos.compare_cont_spec. cbn [Pos.switch_Eq].
    destruct (Z.compare_spec e e'), (Pos.compare_spec m m'); cbn [CompOpp];
      split; intros E; try discriminate E; try reflexivity; lia.
Qed.

Lemma SFltb_key_false (x y : spec_float) :
  is_nan x = false -> is_nan y = false ->
  SFltb x y = false -> ~ key_lt (float_key x) (float_key y).
Proof.
  intros Hx Hy E K. apply (SFltb_key x y Hx Hy) in K. congruence.
Qed.

Lemma SFltb_nan_l (x : spec_float) : SFltb S754_nan x = false.
Proof. reflexivity. Qed.

Lemma SFltb_nan_r (x : spec_float) : SFltb x S754_nan = false.
Proof. destruct x as [| | |[] ? ?]; reflexivity. Qed.

Lemma SFltb_zero_l (x : spec_float) (s s' : bool) :
  SFltb (S754_zero s) x = SFltb (S754_zero s') x.
Proof. destruct x as [| | |[] ? ?]; reflexivity. Qed.

Lemma SFltb_zero_r (x : spec_float) (s s' : bool) :
  SFltb x (S754_zero s) = SFltb x (S754_zero s').
Proof. destruct x as [| | |[] ? ?]; reflexivity. Qed.

Lemma is_nan_true (x : spec_float) : is_nan x = true -> x = S754_nan.
Proof. destruct x; try discriminate; reflexivity. Qed.

Lemma is_zero_true (x : spec_float) :
  is_zero x = true -> exists s, x = S754_zero s.
Proof. destruct x as [s| | |]; try discriminate. exists s. reflexivity. Qed.

Lemma key_same_number (x y : spec_float) :
  is_nan x = false -> is_nan y = false ->
  float_key x = float_key y -> same_number x y.
Proof.
  destruct x as [[]|[]| |[] m e], y as [[]|[]| |[] m' e']; try discriminate;
    intros _ _ E; unfold float_key in E; try discriminate E;
    try (left; reflexivity); try (right; split; reflexivity);
    injection E as E1 E2; left; f_equal; lia.
Qed.

Lemma same_number_refl (x : spec_float) : same_number x x.
Proof. left. reflexivity. Qed.

Lemma same_number_trans (x y z : spec_float) :
  same_number x y -> same_number y z -> same_number x z.
Proof.
  intros [E|(Hx & Hy)] [E'|(Hy' & Hz)]; subst.
  - left. reflexivity.
  - right. split; assumption.
  - right. split; assumption.
  - right. split; assumption.
Qed.

(** The tests of one selection, as facts on the keys. *)
Ltac order_floats :=
  repeat match goal with
  | |- context [SFltb ?u ?v] =>
      let E := fresh "E" in
      destruct (SFltb u v) eqn:E;
      [apply SFltb_key in E; [|assumption|assumption]
      |apply SFltb_key_false in E; [|assumption|assumption]]
  end.

Ltac compare_keys x a b :=
  first [apply same_number_refl
        |apply key_same_number; [assumption|assumption|]
        |idtac];
  repeat match goal with
  | H : SFltb _ _ = true |- _ =>
      apply SFltb_key in H; [|assumption|assumption]
  | H : SFltb _ _ = false |- _ =>
      apply SFltb_key_false in H; [|assumption|assumption]
  end;
  unfold key_lt in *;
  destruct (float_key x) as ((?x1, ?x2), ?x3);
  destruct (float_key a) as ((?a1, ?a2), ?a3);
  destruct (float_key b) as ((?b1, ?b2), ?b3);
  try (exfalso; lia); try (repeat f_equal; lia).

Ltac skip_nan x H :=
  apply is_nan_true in H; subst x; unfold fmin, fmax;
  repeat (rewrite ?SFltb_nan_l, ?SFltb_nan_r; cbv iota);
  apply same_number_refl.

(** The least of three numbers does not depend on the order in which the
    last two are met, but for the sign of a zero. *)
Lemma fmin_commutes (x a b : spec_float) :
  same_number (fmin (fmin x a) b) (fmin (fmin x b) a).
Proof.
  destruct (is_nan x) eqn:Hx; [skip_nan x Hx|].
  destruct (is_nan a) eqn:Ha; [skip_nan a Ha|].
  destruct (is_nan b) eqn:Hb; [skip_nan b Hb|].
  unfold fmin.
  destruct (SFltb a x) eqn:E1, (SFltb b x) eqn:E2;
    order_floats; compare_keys x a b.
Qed.

Lemma fmax_commutes (x a b : spec_float) :
  same_number (fmax (fmax x a) b) (fmax (fmax x b) a).
Proof.
  destruct (is_nan x) eqn:Hx; [skip_nan x Hx|].
  destruct (is_nan a) eqn:Ha; [skip_nan a Ha|].
  destruct (is_nan b) eqn:Hb; [skip_nan b Hb|].
  unfold fmax.
  destruct (SFltb x a) eqn:E1, (SFltb x b) eqn:E2;
    order_floats; compare_keys x a b.
Qed.

Lemma fmin_same_number (x x' b : spec_float) :
  same_number x x' -> same_number (fmin x b) (fmin x' b).
Proof.
  intros [E|(Hx & Hx')]; [subst; apply same_number_refl|].
  apply is_zero_true in Hx, Hx'. destruct Hx as (s & ->), Hx' as (s' & ->).
  unfold fmin. rewrite (SFltb_zero_r b s s').
  destruct (SFltb b (S754_zero s')).
  - apply same_number_refl.
  - right. split; reflexivity.
Qed.

Lemma fmax_same_number (x x' b : spec_float) :
  same_number x x' -> same_number (fmax x b) (fmax x' b).
Proof.
  intros [E|(Hx & Hx')]; [subst; apply same_number_refl|].
  apply is_zero_true in Hx, Hx'. destruct Hx as (s & ->), Hx' as (s' & ->).
  unfold fmax. rewrite (SFltb_zero_l b s s').
  destruct (SFltb (S754_zero s') b).
  - apply same_number_refl.
  - right. split; reflexivity.
Qed.

Lemma same_box_refl (a : AABB3) : same_box a a.
Proof.
  destruct a as [((a0, a1), a2) ((b0, b1), b2)].
  repeat split; apply same_number_refl.
Qed.

Lemma same_box_trans (a b c : AABB3) :
  same_box a b -> same_box b c -> same_box a c.
Proof.
  destruct a as [((a0, a1), a2) ((a3, a4), a5)],
           b as [((b0, b1), b2) ((b3, b4), b5)],
           c as [((c0, c1), c2) ((c3, c4), c5)].
  unfold same_box, same_corner. cbn [box_min box_max].
  intros ((H0 & H1 & H2) & H3 & H4 & H5) ((K0 & K1 & K2) & K3 & K4 & K5).
  repeat split; eapply same_number_trans; eassumption.
Qed.

Lemma AABB3_insert_same_box (acc acc' b : AABB3) :
  same_box acc acc' -> same_box (AABB3_insert acc b) (AABB3_insert acc' b).
Proof.
  destruct acc as [((a0, a1), a2) ((a3, a4), a5)],
           acc' as [((b0, b1), b2) ((b3, b4), b5)],
           b as [((c0, c1), c2) ((c3, c4), c5)].
  unfold same_box, same_corner, AABB3_insert, map2_3. cbn [box_min box_max].
  intros ((H0 & H1 & H2) & H3 & H4 & H5).
  repeat split;
    (apply fmin_same_number || apply fmax_same_number); assumption.
Qed.

(** Two insertions in either order give the same box, but for the sign of
    a zero coordinate. *)
Lemma AABB3_insert_commutes (acc a b : AABB3) :
  same_box (AABB3_insert (AABB3_insert acc a) b)
           (AABB3_insert (AABB3_insert acc b) a).
Proof.
  destruct acc as [((a0, a1), a2) ((a3, a4), a5)],
           a as [((b0, b1), b2) ((b3, b4), b5)],
           b as [((c0, c1), c2) ((c3, c4), c5)].
  unfold same_box, same_corner, AABB3_insert, map2_3. cbn [box_min box_max].
  repeat split; (apply fmin_commutes || apply fmax_commutes).
Qed.


(** ** The claims at work *)

(** The builder's first call on the two clusters: the split is along the
    first dimension, between the clusters. *)
Example clusters_are_separated :
  exists left_areas,
    partition clusters 0 4 (bbox_of clusters) clusters_partitioner
    = Ok (2, with_arrays clusters_partitioner [0; 2; 1; 3] left_areas) /\
    best_split_dim (best_candidate (candidates clusters (seq 0 3) (seq 0 4)))
    = 0.
Proof. eexists. split; vm_compute; reflexivity. Qed.

Example initialize_four :
  initialize 4 (make 1 one one) = Ok clusters_partitioner.
Proof. reflexivity. Qed.

Example compute_bbox_clusters :
  compute_bbox clusters 0 4 clusters_partitioner = Ok (box 0 0 0 11 2 1).
Proof. vm_compute. reflexivity. Qed.

Lemma partition_small_range_is_leaf_witness :
  partition clusters 0 4 (bbox_of clusters) (partitioner 4 one one 4)
  = Ok (4, partitioner 4 one one 4).
Proof.
  apply partition_small_range_is_leaf; cbn; lia.
Defined.

Lemma partition_frame_witness :
  exists r p',
    partition clusters 0 4 (bbox_of clusters) clusters_partitioner
    = Ok (r, p') /\
    m_max_leaf_size p' = m_max_leaf_size clusters_partitioner /\
    m_interior_node_traversal_cost p'
    = m_interior_node_traversal_cost clusters_partitioner /\
    m_triangle_intersection_cost p'
    = m_triangle_intersection_cost clusters_partitioner /\
    length (m_indices p') = length (m_indices clusters_partitioner) /\
    forall i, i < 0 \/ 4 <= i ->
      nth_error (m_indices p') i = nth_error (m_indices clusters_partitioner) i.
Proof.
  exact (partition_frame clusters 0 4 (bbox_of clusters) clusters_partitioner
           (clusters_valid 1 one)).
Defined.

Lemma indices_remain_a_permutation_witness :
  exists r p',
    partition clusters 0 4 (bbox_of clusters) clusters_partitioner
    = Ok (r, p') /\
    let before := window 0 (4 - 0) (m_indices clusters_partitioner) in
    let left := window 0 (r - 0) (m_indices p') in
    let right := window r (4 - r) (m_indices p') in
    Permutation before (left ++ right) /\
    (NoDup before -> forall i, In i left -> ~ In i right) /\
    forall N, Permutation (seq 0 N) (m_indices clusters_partitioner) ->
              Permutation (seq 0 N) (m_indices p').
Proof.
  exact (proj2 indices_remain_a_permutation clusters 0 4 (bbox_of clusters)
           clusters_partitioner (clusters_valid 1 one)).
Defined.

Lemma partition_return_value_bounds_witness :
  exists r p',
    partition clusters 0 4 (bbox_of clusters) clusters_partitioner
    = Ok (r, p') /\
    0 < r <= 4.
Proof.
  destruct (partition_return_value_bounds clusters 0 4 (bbox_of clusters)
              clusters_partitioner (clusters_valid 1 one))
    as (r & p' & Hrun & Hbounds & Hbegin).
  exists r, p'. split; [exact Hrun|]. split; [|apply Hbounds].
  apply Hbegin.
  exists (best_candidate (candidates clusters (seq 0 3) (seq 0 4))).
  split; vm_compute; auto.
Defined.

Lemma partition_deterministic_witness :
  (exists indices areas1 areas2 best,
     find_best_split clusters 0 (4 - 0) (m_indices clusters_partitioner)
       (ensure_minimum_size (m_left_areas clusters_partitioner) (4 - 0 - 1))
     = Ok (indices, areas1, best) /\
     find_best_split clusters 0 (4 - 0) (m_indices reused_partitioner)
       (ensure_minimum_size (m_left_areas reused_partitioner) (4 - 0 - 1))
     = Ok (indices, areas2, best)) /\
  (exists r p1' p2',
     partition clusters 0 4 (bbox_of clusters) clusters_partitioner
     = Ok (r, p1') /\
     partition clusters 0 4 (bbox_of clusters) reused_partitioner
     = Ok (r, p2') /\
     m_indices p1' = m_indices p2').
Proof.
  exact (partition_deterministic clusters 0 4 (bbox_of clusters)
           clusters_partitioner reused_partitioner (clusters_valid 1 one)
           eq_refl eq_refl eq_refl eq_refl).
Defined.

Lemma partition_split_is_sorted_witness :
  exists r p',
    partition clusters 0 4 (bbox_of clusters) clusters_partitioner
    = Ok (r, p') /\
    (r < 4 ->
     let best :=
       best_candidate
         (candidates clusters (seq 0 Dimension)
            (window 0 (4 - 0) (m_indices clusters_partitioner))) in
     let predicate := BboxSortPredicate clusters (best_split_dim best) in
     let scanned :=
       sorted_along clusters (seq 0 Dimension)
         (window 0 (4 - 0) (m_indices clusters_partitioner)) in
     r = 0 + best_split_pivot best /\
     window 0 (4 - 0) (m_indices p')
     = (if before_last_dimension (best_split_dim best)
        then std_sort predicate scanned else scanned) /\
     is_sorted predicate (window 0 (4 - 0) (m_indices p')) /\
     forall x y,
       In x (window 0 (r - 0) (m_indices p')) ->
       In y (window r (4 - r) (m_indices p')) ->
       predicate y x = false).
Proof.
  exact (partition_split_is_sorted clusters 0 4 (bbox_of clusters)
           clusters_partitioner (clusters_valid 1 one)).
Defined.

(** The call the witness of C10 runs returns [end] and leaves the three
    items in the reverse of their order before the call. *)
Example stack_is_reordered :
  partition stack 0 3 (bbox_of stack) (partitioner 1 hundred one 3)
  = Ok (3, with_arrays (partitioner 1 hundred one 3) [2; 1; 0]
             [double_of_Z 3; double_of_Z 7]).
Proof. vm_compute. reflexivity. Qed.

Lemma partition_leaf_keeps_last_sort_witness :
  exists r p',
    partition stack 0 3 (bbox_of stack) (partitioner 1 hundred one 3)
    = Ok (r, p') /\
    (r = 3 ->
     let before := window 0 (3 - 0) (m_indices (partitioner 1 hundred one 3)) in
     let after := window 0 (3 - 0) (m_indices p') in
     after = sorted_along stack (seq 0 Dimension) before /\
     is_sorted (BboxSortPredicate stack (Dimension - 1)) after /\
     (after = before ->
      is_sorted (BboxSortPredicate stack (Dimension - 1)) before)).
Proof.
  apply (partition_leaf_keeps_last_sort stack 0 3 (bbox_of stack)
           (partitioner 1 hundred one 3) (stack_valid hundred)).
  cbn. lia.
Defined.

Lemma partition_leaf_decision_witness :
  let cs := candidates clusters (seq 0 3) (seq 0 4) in
  let best := best_candidate cs in
  exists r p',
    partition clusters 0 4 (bbox_of clusters) clusters_partitioner
    = Ok (r, p') /\
    (r = 4 <->
     vle (leaf_cost_of clusters_partitioner 4)
         (split_cost_of clusters_partitioner (bbox_of clusters)
            (best_split_cost best))
     = true) /\
    first_minimum best (no_split :: cs).
Proof.
  intros cs best.
  destruct (partition_leaf_decision clusters 0 4 (bbox_of clusters)
              clusters_partitioner (clusters_valid 1 one))
    as (r & p' & Hrun & Hiff & Hmin); [cbn; lia|].
  exists r, p'. split; [exact Hrun|]. split; [exact Hiff|].
  apply Hmin. apply costs_orderedb_sound. vm_compute. reflexivity.
Defined.


Lemma partition_zero_area_is_split_witness :
  let best := best_candidate (candidates coincident (seq 0 3) (seq 0 3)) in
  split_cost_of (partitioner 1 one one 3) (bbox_of coincident)
    (best_split_cost best) = S754_nan /\
  exists p',
    partition coincident 0 3 (bbox_of coincident) (partitioner 1 one one 3)
    = Ok (0 + best_split_pivot best, p') /\
    0 + best_split_pivot best < 3.
Proof.
  apply (partition_zero_area_is_split coincident 0 3 (bbox_of coincident)
           (partitioner 1 one one 3) coincident_valid).
  - cbn. lia.
  - vm_compute. reflexivity.
  - vm_compute. reflexivity.
Defined.

(** ** Where the claims do not hold *)

(** C1 fails in the code.  Three boxes of finite corners whose faces have
    an area beyond the largest [double]: every candidate costs [+inf], none
    is cheaper than [numeric_max], and the pivot keeps the [0] it was
    initialized with, which is the pivot of no candidate; the cost of the
    split is [1 + numeric_max / inf * 1 = 1], less than the cost [3] of the
    leaf, and the valid call returns [begin]: the left side is empty and
    the right side is the whole range again. *)
Lemma partition_returns_begin :
  valid_call huge 0 3 (partitioner 1 one one 3) /\
  compute_bbox huge 0 3 (partitioner 1 one one 3) = Ok (bbox_of huge) /\
  exists r p',
    partition huge 0 3 (bbox_of huge) (partitioner 1 one one 3) = Ok (r, p') /\
    ~ (0 < r <= 3).
Proof.
  split; [apply huge_valid|]. split; [vm_compute; reflexivity|].
  eexists 0, _. split; [vm_compute; reflexivity|]. lia.
Qed.


(** C2 as written fails.  Three times the same point, more than a leaf of
    one item may hold: the box of the range has a half surface area of
    zero, the cost of the best split is not a number, and the valid call
    returns [2], not [end = 3]. *)
Lemma coincident_range_is_split :
  valid_call coincident 0 3 (partitioner 1 one one 3) /\
  compute_bbox coincident 0 3 (partitioner 1 one one 3)
  = Ok (bbox_of coincident) /\
  half_surface_area (bbox_of coincident) = S754_zero false /\
  split_cost_of (partitioner 1 one one 3) (bbox_of coincident)
    (best_split_cost
       (best_candidate (candidates coincident (seq 0 3) (seq 0 3))))
  = S754_nan /\
  exists r p',
    partition coincident 0 3 (bbox_of coincident) (partitioner 1 one one 3)
    = Ok (r, p') /\
    r <> 3.
Proof.
  split; [apply coincident_valid|].
  split; [vm_compute; reflexivity|].
  split; [vm_compute; reflexivity|].
  split; [vm_compute; reflexivity|].
  eexists 2, _. split; [vm_compute; reflexivity|]. lia.
Qed.

(** C7 as written fails.  With the boxes of [huge] and a traversal cost of
    [10], the minimum over the candidates is [+inf] and the cost of the
    split by the formula is not a number, so that the leaf cost [3] is not
    below it; the code keeps [numeric_max] as best cost, finds a split cost
    of [10] and returns [end]. *)
Lemma leaf_decision_is_not_by_the_minimum :
  let p := partitioner 1 ten one 3 in
  valid_call huge 0 3 p /\
  compute_bbox huge 0 3 p = Ok (bbox_of huge) /\
  exists p' least,
    partition huge 0 3 (bbox_of huge) p = Ok (3, p') /\
    minimum_candidate (candidates huge (seq 0 3) (seq 0 3)) = Some least /\
    vle (leaf_cost_of p 3)
        (split_cost_of p (bbox_of huge) (best_split_cost least))
    = false.
Proof.
  split; [apply huge_valid|]. split; [vm_compute; reflexivity|].
  eexists _, _. split; [vm_compute; reflexivity|].
  split; vm_compute; reflexivity.
Qed.

(** * Further properties of the partitioner *)

Section BuilderProperties.

Context {V B : Type} {SV : Scalar V} {BB : AABB V B}.
Context {TD : TreeDimension} {SO : Sorting B} {SS : StdSort SO}.

Lemma strict_weak_on_incl (cmp : nat -> nat -> bool) (l l' : list nat) :
  incl l' l -> strict_weak_on cmp l -> strict_weak_on cmp l'.
Proof.
  intros Hincl (Hirr & Htr & Heq). split; [|split].
  - intros a Ha. apply Hirr, Hincl, Ha.
  - intros a b c Ha Hb Hc. apply Htr; apply Hincl; assumption.
  - intros a b c Ha Hb Hc. apply Heq; apply Hincl; assumption.
Qed.

Lemma valid_call_parts (bboxes : list B) (p : SAHPartitioner V)
    (pre items post : list nat) :
  m_indices p = pre ++ items ++ post ->
  valid_call bboxes (length pre) (length pre + length items) p <->
  1 < length items /\
  0 < Dimension /\
  Forall (fun idx => idx < length bboxes) items /\
  (forall dim, dim < Dimension ->
     strict_weak_on (BboxSortPredicate bboxes dim) items).
Proof.
  intros Hp. unfold valid_call.
  replace (length pre + length items - length pre) with (length items) by lia.
  rewrite Hp, window_middle, !length_app.
  split.
  - intros (H1 & _ & H3 & H4 & H5). auto.
  - intros (H1 & H3 & H4 & H5).
    split; [exact H1|]. split; [lia|]. split; [exact H3|]. split; assumption.
Qed.

Lemma split_of_with_arrays (bboxes : list B) (bbox : B) (p : SAHPartitioner V)
    (indices : list nat) (left_areas : list V) (items : list nat) :
  split_of bboxes bbox (with_arrays p indices left_areas) items
  = split_of bboxes bbox p items.
Proof. reflexivity. Qed.

(** [partition] on a vector given by its three parts. *)
Lemma partition_on_parts (bboxes : list B) (bbox : B) (p : SAHPartitioner V)
    (pre items post : list nat) :
  m_indices p = pre ++ items ++ post ->
  valid_call bboxes (length pre) (length pre + length items) p ->
  exists left_areas',
    partition bboxes (length pre) (length pre + length items) bbox p
    = Ok (length pre + fst (split_of bboxes bbox p items),
          with_arrays p (pre ++ snd (split_of bboxes bbox p items) ++ post)
            left_areas') /\
    Permutation items (snd (split_of bboxes bbox p items)) /\
    fst (split_of bboxes bbox p items) <= length items.
Proof.
  intros Hp Hvalid.
  pose proof (proj1 (valid_call_parts bboxes p pre items post Hp) Hvalid)
    as (Hcount & Hdim & Hall & Hswo).
  assert (Hpre : firstn (length pre) (m_indices p) = pre).
  { rewrite Hp, firstn_app, firstn_all, Nat.sub_diag. cbn [firstn].
    apply app_nil_r. }
  assert (Hpost : skipn (length pre + length items) (m_indices p) = post).
  { rewrite Hp, (Nat.add_comm (length pre)), <- skipn_skipn.
    rewrite skipn_app, skipn_all, Nat.sub_diag. cbn [skipn app].
    rewrite skipn_app, skipn_all, Nat.sub_diag. reflexivity. }
  assert (Hwin : window (length pre) (length pre + length items - length pre)
                   (m_indices p) = items).
  { replace (length pre + length items - length pre) with (length items) by lia.
    rewrite Hp. apply window_middle. }
  assert (Hscanned : Permutation items
                       (sorted_along bboxes (seq 0 Dimension) items)).
  { apply sorted_along_perm. scanned_dimension Hswo. }
  destruct (best_candidate_bounds bboxes items Hswo Hdim) as (Hbd & Hbp).
  unfold split_of.
  destruct (Nat.leb_spec (length items) (m_max_leaf_size p)) as [Hleaf|Hleaf].
  - exists (m_left_areas p). cbn [fst snd].
    rewrite partition_leaf_size by lia.
    rewrite <- Hp, with_arrays_same.
    split; [reflexivity|]. split; [apply Permutation_refl|lia].
  - destruct (partition_run bboxes (length pre) (length pre + length items)
                bbox p Hvalid) as (areas' & Hrun); [lia|].
    rewrite Hwin, Hpre, Hpost in Hrun.
    replace (length pre + length items - length pre) with (length items)
      in Hrun by lia.
    exists areas'. rewrite Hrun.
    destruct (vle _ _); cbn [fst snd].
    + split; [reflexivity|]. split; [exact Hscanned|lia].
    + split; [reflexivity|]. split; [|lia].
      destruct (before_last_dimension _); [|exact Hscanned].
      eapply Permutation_trans; [exact Hscanned|].
      apply std_sort_permutes.
      eapply strict_weak_on_perm; [exact Hscanned|]. apply Hswo, Hbd.
Qed.

Lemma incl_firstn {A : Type} (n : nat) (l : list A) : incl (firstn n l) l.
Proof.
  intros x Hx. rewrite <- (firstn_skipn n l). apply in_or_app. left. exact Hx.
Qed.

Lemma incl_skipn {A : Type} (n : nat) (l : list A) : incl (skipn n l) l.
Proof.
  intros x Hx. rewrite <- (firstn_skipn n l). apply in_or_app. right. exact Hx.
Qed.

(** The conditions of a valid call pass from a range to the ranges that
    hold some of its items. *)
Lemma valid_items_incl (bboxes : list B) (items items' : list nat) :
  incl items' items ->
  Forall (fun idx => idx < length bboxes) items /\
  (forall dim, dim < Dimension ->
     strict_weak_on (BboxSortPredicate bboxes dim) items) ->
  Forall (fun idx => idx < length bboxes) items' /\
  (forall dim, dim < Dimension ->
     strict_weak_on (BboxSortPredicate bboxes dim) items').
Proof.
  intros Hincl (Hall & Hswo). split.
  - apply (incl_Forall Hincl Hall).
  - intros dim Hdim. apply (strict_weak_on_incl _ items); auto.
Qed.

(** X1.  After a valid call of [partition] has returned [r], the two sides
    [[begin, r)] and [[r, end)] of the range are ranges [partition] can be
    called on in turn, each as soon as it holds more than one item: the
    caller recurses without any further check. *)
Theorem partition_sides_are_valid (bboxes : list B) (begin end_ : nat)
    (bbox : B) (p : SAHPartitioner V) :
  valid_call bboxes begin end_ p ->
  exists r p',
    partition bboxes begin end_ bbox p = Ok (r, p') /\
    (1 < r - begin -> valid_call bboxes begin r p') /\
    (1 < end_ - r -> valid_call bboxes r end_ p').
Proof.
  intros Hvalid.
  destruct (partition_indices bboxes begin end_ bbox p Hvalid)
    as (r & pre & items & items' & post & areas'
        & Hrun & Hsplit & Hitems & Hpre & Hlen' & Hperm & Hr).
  destruct Hvalid as (Hcount & Hend & Hdim & Hall & Hswo).
  rewrite <- Hitems in Hall, Hswo.
  assert (Hvalid' :
            Forall (fun idx => idx < length bboxes) items' /\
            (forall dim, dim < Dimension ->
               strict_weak_on (BboxSortPredicate bboxes dim) items')).
  { apply (valid_items_incl bboxes items); [|split; assumption].
    intros x Hx. apply (Permutation_in x (Permutation_sym Hperm) Hx). }
  assert (Hlen : length (pre ++ items' ++ post) = length (m_indices p)).
  { rewrite Hsplit, !length_app, (Permutation_length Hperm). reflexivity. }
  exists r, (with_arrays p (pre ++ items' ++ post) areas').
  split; [exact Hrun|]. unfold valid_call. cbn [with_arrays m_indices].
  split; intros Hside.
  - assert (Hwin : window begin (r - begin) (pre ++ items' ++ post)
                   = firstn (r - begin) items').
    { rewrite <- Hpre. apply window_left. lia. }
    rewrite Hwin.
    destruct (valid_items_incl bboxes items' (firstn (r - begin) items')
                (incl_firstn _ _) Hvalid') as (Hall1 & Hswo1).
    split; [exact Hside|]. split; [lia|]. split; [exact Hdim|].
    split; assumption.
  - assert (Hwin : window r (end_ - r) (pre ++ items' ++ post)
                   = skipn (r - begin) items').
    { replace r with (length pre + (r - begin)) at 1 by lia.
      replace (end_ - r) with (length items' - (r - begin)) by lia.
      apply window_right. lia. }
    rewrite Hwin.
    destruct (valid_items_incl bboxes items' (skipn (r - begin) items')
                (incl_skipn _ _) Hvalid') as (Hall2 & Hswo2).
    split; [exact Hside|]. split; [lia|]. split; [exact Hdim|].
    split; assumption.
Qed.

(** What a sequence of valid calls keeps. *)
Lemma builds_invariant (bboxes : list B) (p p' : SAHPartitioner V) :
  builds bboxes p p' ->
  Permutation (m_indices p) (m_indices p') /\
  m_max_leaf_size p' = m_max_leaf_size p /\
  m_interior_node_traversal_cost p' = m_interior_node_traversal_cost p /\
  m_triangle_intersection_cost p' = m_triangle_intersection_cost p.
Proof.
  induction 1 as [p|p p1 p' begin end_ r bbox Hvalid Hcall _ IH].
  - split; [apply Permutation_refl|]. auto.
  - destruct (partition_indices bboxes begin end_ bbox p Hvalid)
      as (r' & pre & items & items' & post & areas'
          & Hrun & Hsplit & _ & _ & _ & Hperm & _).
    rewrite Hrun in Hcall. injection Hcall as _ Hp1. subst p1.
    cbn [with_arrays m_indices m_max_leaf_size
         m_interior_node_traversal_cost m_triangle_intersection_cost] in IH.
    destruct IH as (HP & Hm & Ht & Hi).
    split; [|auto].
    eapply Permutation_trans; [|exact HP].
    rewrite Hsplit. apply Permutation_app_head, Permutation_app_tail, Hperm.
Qed.

(** X2.  From a partitioner constructed and initialised for [size] items,
    whatever sequence of valid calls of [partition] the builder makes,
    [get_item_ordering] returns [size] indices, each index of [[0, size)]
    once, and the three constants are those given to the constructor. *)
Theorem item_ordering_is_kept (bboxes : list B) (size max_leaf_size : nat)
    (traversal intersection : V) (p0 p : SAHPartitioner V) :
  initialize size (make max_leaf_size traversal intersection) = Ok p0 ->
  builds bboxes p0 p ->
  Permutation (seq 0 size) (get_item_ordering p) /\
  length (get_item_ordering p) = size /\
  NoDup (get_item_ordering p) /\
  m_max_leaf_size p = max_leaf_size /\
  m_interior_node_traversal_cost p = traversal /\
  m_triangle_intersection_cost p = intersection.
Proof.
  intros Hinit Hbuilds. rewrite initialize_spec in Hinit.
  injection Hinit as <-.
  destruct (builds_invariant bboxes _ _ Hbuilds) as (HP & Hm & Ht & Hi).
  cbn [with_arrays make m_indices m_max_leaf_size
       m_interior_node_traversal_cost m_triangle_intersection_cost] in *.
  unfold get_item_ordering. split; [exact HP|]. split; [|split].
  - rewrite <- (Permutation_length HP). apply length_seq.
  - apply (Permutation_NoDup HP), seq_NoDup.
  - auto.
Qed.

(** The box of the range before and after a valid call, for a box type
    whose [insert] commutes up to a relation [R] that it respects. *)
Lemma bbox_across_partition (R : B -> B -> Prop) (bboxes : list B)
    (begin end_ : nat) (bbox : B) (p : SAHPartitioner V) :
  (forall a, R a a) ->
  (forall a b c, R a b -> R b c -> R a c) ->
  (forall acc acc' b, R acc acc' -> R (insert acc b) (insert acc' b)) ->
  (forall acc a b, R (insert (insert acc a) b) (insert (insert acc b) a)) ->
  valid_call bboxes begin end_ p ->
  exists r p' before after,
    partition bboxes begin end_ bbox p = Ok (r, p') /\
    compute_bbox bboxes begin end_ p = Ok before /\
    compute_bbox bboxes begin end_ p' = Ok after /\
    R before after.
Proof.
  intros Hrefl Htrans Hrespects Hcomm Hvalid.
  destruct (partition_indices bboxes begin end_ bbox p Hvalid)
    as (r & pre & items & items' & post & areas'
        & Hrun & Hsplit & Hitems & Hpre & Hlen' & Hperm & Hr).
  destruct Hvalid as (Hcount & Hend & Hdim & Hall & Hswo).
  rewrite <- Hitems in Hall.
  assert (Hwin : window begin (end_ - begin) (pre ++ items' ++ post) = items').
  { rewrite <- Hlen', <- Hpre. apply window_middle. }
  destruct (compute_bbox_permutation R bboxes begin end_ p
              (with_arrays p (pre ++ items' ++ post) areas')
              Hrefl Htrans Hrespects Hcomm)
    as (before & after & Hbefore & Hafter & HR).
  - exact Hend.
  - cbn [with_arrays m_indices].
    rewrite !length_app, <- (Permutation_length Hperm).
    rewrite Hsplit, !length_app in Hend. exact Hend.
  - rewrite <- Hitems. exact Hall.
  - cbn [with_arrays m_indices]. rewrite Hwin, <- Hitems. exact Hperm.
  - exists r, (with_arrays p (pre ++ items' ++ post) areas'), before, after.
    auto.
Qed.

(** Two calls on ranges that do not overlap, on a vector given by its
    five parts. *)
Lemma siblings_commute_parts (bboxes : list B) (bbox1 bbox2 : B)
    (p : SAHPartitioner V) (A W1 M W2 Z : list nat) (b1 e1 b2 e2 : nat) :
  m_indices p = A ++ W1 ++ M ++ W2 ++ Z ->
  b1 = length A -> e1 = b1 + length W1 ->
  b2 = e1 + length M -> e2 = b2 + length W2 ->
  valid_call bboxes b1 e1 p ->
  valid_call bboxes b2 e2 p ->
  exists r1 r2 pa pb pab pba,
    partition bboxes b1 e1 bbox1 p = Ok (r1, pa) /\
    partition bboxes b2 e2 bbox2 pa = Ok (r2, pab) /\
    partition bboxes b2 e2 bbox2 p = Ok (r2, pb) /\
    partition bboxes b1 e1 bbox1 pb = Ok (r1, pba) /\
    m_indices pab = m_indices pba.
Proof.
  intros Hp Hb1 He1 Hb2 He2 Hv1 Hv2.
  set (x1 := snd (split_of bboxes bbox1 p W1)).
  set (x2 := snd (split_of bboxes bbox2 p W2)).
  (* the first range, then the second *)
  subst b1 e1.
  destruct (partition_on_parts bboxes bbox1 p A W1 (M ++ W2 ++ Z) Hp Hv1)
    as (a1 & Hrun1 & Hperm1 & _).
  fold x1 in Hrun1, Hperm1.
  assert (Hlen1 : length x1 = length W1)
    by (symmetry; apply Permutation_length, Hperm1).
  assert (Hp2 : m_indices p = (A ++ W1 ++ M) ++ W2 ++ Z)
    by (rewrite Hp, <- !app_assoc; reflexivity).
  assert (HlenP : length (A ++ W1 ++ M) = b2)
    by (rewrite !length_app; lia).
  subst e2. rewrite <- HlenP in Hv2.
  pose proof (proj1 (valid_call_parts bboxes p _ W2 Z Hp2) Hv2) as Hparts2.
  set (pa := with_arrays p (A ++ x1 ++ M ++ W2 ++ Z) a1) in *.
  assert (Hpa : m_indices pa = (A ++ x1 ++ M) ++ W2 ++ Z)
    by (cbn [pa with_arrays m_indices]; rewrite <- !app_assoc; reflexivity).
  assert (HlenPa : length (A ++ x1 ++ M) = length (A ++ W1 ++ M))
    by (rewrite !length_app; lia).
  assert (Hva : valid_call bboxes (length (A ++ x1 ++ M))
                  (length (A ++ x1 ++ M) + length W2) pa)
    by (apply (valid_call_parts bboxes pa _ W2 Z Hpa); exact Hparts2).
  destruct (partition_on_parts bboxes bbox2 pa (A ++ x1 ++ M) W2 Z Hpa Hva)
    as (a2 & Hrun2 & _).
  rewrite HlenPa in Hrun2.
  change (split_of bboxes bbox2 pa W2) with (split_of bboxes bbox2 p W2)
    in Hrun2.
  fold x2 in Hrun2.
  (* the second range, then the first *)
  destruct (partition_on_parts bboxes bbox2 p (A ++ W1 ++ M) W2 Z Hp2 Hv2)
    as (a3 & Hrun3 & Hperm2 & _).
  fold x2 in Hrun3, Hperm2.
  pose proof (proj1 (valid_call_parts bboxes p A W1 (M ++ W2 ++ Z) Hp) Hv1)
    as Hparts1.
  set (pb := with_arrays p ((A ++ W1 ++ M) ++ x2 ++ Z) a3) in *.
  assert (Hpb : m_indices pb = A ++ W1 ++ M ++ x2 ++ Z)
    by (cbn [pb with_arrays m_indices]; rewrite <- !app_assoc; reflexivity).
  assert (Hvb : valid_call bboxes (length A) (length A + length W1) pb)
    by (apply (valid_call_parts bboxes pb A W1 (M ++ x2 ++ Z) Hpb);
        exact Hparts1).
  destruct (partition_on_parts bboxes bbox1 pb A W1 (M ++ x2 ++ Z) Hpb Hvb)
    as (a4 & Hrun4 & _).
  change (split_of bboxes bbox1 pb W1) with (split_of bboxes bbox1 p W1)
    in Hrun4.
  fold x1 in Hrun4.
  rewrite HlenP in Hrun2, Hrun3.
  eexists _, _, _, _, _, _.
  split; [exact Hrun1|]. split; [exact Hrun2|].
  split; [exact Hrun3|]. split; [exact Hrun4|].
  cbn [with_arrays m_indices]. rewrite <- !app_assoc. reflexivity.
Qed.

(** X4.  Two valid calls of [partition] on ranges that do not overlap can
    be made in either order: each returns the same value in both orders,
    and the index vector after the two calls is the same.  The decision on
    a range depends on no other range of the vector. *)
Theorem partition_siblings_commute (bboxes : list B) (b1 e1 b2 e2 : nat)
    (bbox1 bbox2 : B) (p : SAHPartitioner V) :
  e1 <= b2 ->
  valid_call bboxes b1 e1 p ->
  valid_call bboxes b2 e2 p ->
  exists r1 r2 pa pb pab pba,
    partition bboxes b1 e1 bbox1 p = Ok (r1, pa) /\
    partition bboxes b2 e2 bbox2 pa = Ok (r2, pab) /\
    partition bboxes b2 e2 bbox2 p = Ok (r2, pb) /\
    partition bboxes b1 e1 bbox1 pb = Ok (r1, pba) /\
    get_item_ordering pab = get_item_ordering pba.
Proof.
  intros Hdisjoint Hv1 Hv2.
  pose proof Hv1 as (Hc1 & Hend1 & _). pose proof Hv2 as (Hc2 & Hend2 & _).
  destruct (split_around_window b1 (e1 - b1) (m_indices p))
    as (Hs1 & HlA & HlW1); [lia|].
  replace (b1 + (e1 - b1)) with e1 in Hs1 by lia.
  assert (Hrest : length (skipn e1 (m_indices p)) = length (m_indices p) - e1)
    by apply length_skipn.
  destruct (split_around_window (b2 - e1) (e2 - b2) (skipn e1 (m_indices p)))
    as (Hs2 & HlM & HlW2); [lia|].
  apply (siblings_commute_parts bboxes bbox1 bbox2 p
           (firstn b1 (m_indices p))
           (window b1 (e1 - b1) (m_indices p))
           (firstn (b2 - e1) (skipn e1 (m_indices p)))
           (window (b2 - e1) (e2 - b2) (skipn e1 (m_indices p)))
           (skipn (b2 - e1 + (e2 - b2)) (skipn e1 (m_indices p))));
    try assumption; try lia.
  rewrite <- Hs2. exact Hs1.
Qed.

End BuilderProperties.

(** ** The box of a range across a call, over [double] boxes *)

Section DoubleBuilder.

Context {TD : TreeDimension} {SO : Sorting AABB3} {SS : StdSort SO}.

(** X3.  Over boxes of [double] coordinates, a valid call of [partition]
    leaves the box of its range as it was, but for the sign of a zero:
    [compute_bbox(begin, end)] gives a box before and after the call, and
    every coordinate is equal in both, or is a zero in both. *)
Theorem partition_keeps_bbox (bboxes : list AABB3) (begin end_ : nat)
    (bbox : AABB3) (p : SAHPartitioner spec_float) :
  valid_call bboxes begin end_ p ->
  exists r p' before after,
    partition bboxes begin end_ bbox p = Ok (r, p') /\
    compute_bbox bboxes begin end_ p = Ok before /\
    compute_bbox bboxes begin end_ p' = Ok after /\
    same_box before after.
Proof.
  apply (bbox_across_partition same_box).
  - exact same_box_refl.
  - exact same_box_trans.
  - exact AABB3_insert_same_box.
  - exact AABB3_insert_commutes.
Qed.

End DoubleBuilder.

(** ** Where the source reads outside its arrays *)

Lemma vec_get_cases {A : Type} (v : list A) (i : nat) :
  (exists a, vec_get v i = Ok a) \/ vec_get v i = Fault OutOfRange.
Proof. unfold vec_get. destruct (nth_error v i); eauto. Qed.

Lemma vec_get_outside {A : Type} (v : list A) (i : nat) :
  length v <= i -> vec_get v i = Fault OutOfRange.
Proof.
  intros H. unfold vec_get. rewrite (proj2 (nth_error_None v i) H). reflexivity.
Qed.

Lemma vec_set_cases {A : Type} (v : list A) (i : nat) (a : A) :
  (exists v', vec_set v i a = Ok v') \/ vec_set v i a = Fault OutOfRange.
Proof. unfold vec_set. destruct (i <? length v); eauto. Qed.

(** A loop whose body reads outside an array at one of its turns, and
    fails in no other way, ends on that fault. *)
Lemma for_each_out_of_range {S : Type} (l : list nat)
    (body : nat -> S -> result S) (i : nat) :
  In i l ->
  (forall s, body i s = Fault OutOfRange) ->
  (forall j s, (exists s', body j s = Ok s') \/ body j s = Fault OutOfRange) ->
  forall s, for_each l body s = Fault OutOfRange.
Proof.
  intros Hin Hbad Hbody. induction l as [|j l IH]; intros s; [destruct Hin|].
  cbn [for_each]. destruct Hin as [->|Hin].
  - rewrite Hbad. reflexivity.
  - destruct (Hbody j s) as [(s' & ->)| ->]; cbn [bind]; [|reflexivity].
    apply IH, Hin.
Qed.

Lemma for_each_ok_or_out_of_range {S : Type} (l : list nat)
    (body : nat -> S -> result S) :
  (forall j s, (exists s', body j s = Ok s') \/ body j s = Fault OutOfRange) ->
  forall s,
  (exists s', for_each l body s = Ok s') \/
  for_each l body s = Fault OutOfRange.
Proof.
  intros Hbody. induction l as [|j l IH]; intros s; cbn [for_each]; [eauto|].
  destruct (Hbody j s) as [(s' & ->)| ->]; cbn [bind]; [apply IH|auto].
Qed.

(** An item of a window is at a position of the vector. *)
Lemma window_position {A : Type} (begin count : nat) (v : list A) (a : A) :
  In a (window begin count v) ->
  exists k, k < count /\ nth_error v (begin + k) = Some a.
Proof.
  intros Hin. apply In_nth_error in Hin. destruct Hin as (k & Hk).
  unfold window in Hk. rewrite nth_error_firstn in Hk.
  destruct (Nat.ltb_spec k count) as [Hlt|]; [|discriminate].
  rewrite nth_error_skipn in Hk. exists k. split; assumption.
Qed.

Section OutOfRange.

Context {V B : Type} {SV : Scalar V} {BB : AABB V B}.
Context {TD : TreeDimension} {SO : Sorting B} {SS : StdSort SO}.

Lemma compute_bbox_body_cases (bboxes : list B) (indices : list nat)
    (i : nat) (bbox : B) :
  (exists bbox',
     (idx <- vec_get indices i ;; b <- vec_get bboxes idx ;;
      Ok (insert bbox b)) = Ok bbox') \/
  (idx <- vec_get indices i ;; b <- vec_get bboxes idx ;;
   Ok (insert bbox b)) = Fault OutOfRange.
Proof.
  destruct (vec_get_cases indices i) as [(idx & ->)| ->]; cbn [bind]; [|auto].
  destruct (vec_get_cases bboxes idx) as [(b & ->)| ->]; cbn [bind]; eauto.
Qed.

(** X5.  [compute_bbox] on a range of at least one item reads
    [m_indices[i]] and [bboxes[m_indices[i]]] for every [i] of the range
    with no check: it has no defined result exactly when the range runs
    past the end of the index vector or holds an item that is the position
    of no box. *)
Theorem compute_bbox_out_of_range (bboxes : list B) (begin end_ : nat)
    (p : SAHPartitioner V) :
  begin < end_ ->
  compute_bbox bboxes begin end_ p = Fault OutOfRange <->
  length (m_indices p) < end_ \/
  Exists (fun idx => length bboxes <= idx)
         (window begin (end_ - begin) (m_indices p)).
Proof.
  intros Hrange. split.
  - intros Hfault.
    destruct (Nat.lt_ge_cases (length (m_indices p)) end_) as [|Hend];
      [left; assumption|right].
    destruct (Forall_Exists_dec (fun idx => idx < length bboxes)
                (fun idx => lt_dec idx (length bboxes))
                (window begin (end_ - begin) (m_indices p))) as [Hall|Hex].
    + rewrite compute_bbox_spec in Hfault by assumption. discriminate.
    + eapply Exists_impl; [|exact Hex]. cbn. intros idx Hidx. lia.
  - intros Hcase. unfold compute_bbox.
    assert (Hbad : exists i, In i (seq begin (end_ - begin)) /\
              forall bbox,
                (idx <- vec_get (m_indices p) i ;; b <- vec_get bboxes idx ;;
                 Ok (insert bbox b)) = Fault OutOfRange).
    { destruct Hcase as [Hend|Hex].
      - exists (end_ - 1). split; [apply in_seq; lia|].
        intros bbox. rewrite vec_get_outside by lia. reflexivity.
      - apply Exists_exists in Hex. destruct Hex as (idx & Hin & Hidx).
        apply window_position in Hin. destruct Hin as (k & Hk & Hnth).
        exists (begin + k). split; [apply in_seq; lia|].
        intros bbox. rewrite (vec_get_nth_error _ _ _ Hnth). cbn [bind].
        rewrite vec_get_outside by exact Hidx. reflexivity. }
    destruct Hbad as (i & Hin & Hfault).
    apply (for_each_out_of_range _ _ i Hin Hfault).
    intros j s. apply compute_bbox_body_cases.
Qed.

Lemma left_sweep_body_cases (bboxes : list B) (begin : nat)
    (indices : list nat) (i : nat) (s : B * list V) :
  (exists s', left_sweep_body bboxes begin indices i s = Ok s') \/
  left_sweep_body bboxes begin indices i s = Fault OutOfRange.
Proof.
  destruct s as (acc, areas). unfold left_sweep_body.
  destruct (vec_get_cases indices (begin + i)) as [(idx & ->)| ->];
    cbn [bind]; [|auto].
  destruct (vec_get_cases bboxes idx) as [(b & ->)| ->]; cbn [bind]; [|auto].
  destruct (vec_set_cases areas i (half_surface_area (insert acc b)))
    as [(areas' & ->)| ->]; cbn [bind]; eauto.
Qed.

Lemma right_sweep_body_cases (bboxes : list B) (begin count : nat)
    (indices : list nat) (left_areas : list V) (dim i : nat)
    (s : B * BestSplit V) :
  (exists s',
     right_sweep_body bboxes begin count indices left_areas dim i s = Ok s') \/
  right_sweep_body bboxes begin count indices left_areas dim i s
  = Fault OutOfRange.
Proof.
  destruct s as (acc, best). unfold right_sweep_body.
  destruct (vec_get_cases indices (begin + i)) as [(idx & ->)| ->];
    cbn [bind]; [|auto].
  destruct (vec_get_cases bboxes idx) as [(b & ->)| ->]; cbn [bind]; [|auto].
  destruct (vec_get_cases left_areas (i - 1)) as [(la & ->)| ->];
    cbn [bind]; [|auto].
  destruct (vgt _ _); eauto.
Qed.

(** The sweeps along one dimension meet every item of the range: the
    left-to-right one all but the last, the right-to-left one all but the
    first. *)
Lemma dimension_body_out_of_range (bboxes : list B)
    (pre items post : list nat) (left_areas : list V) (best : BestSplit V)
    (dim : nat) :
  1 < length items ->
  strict_weak_on (BboxSortPredicate bboxes dim) items ->
  Exists (fun idx => length bboxes <= idx) items ->
  dimension_body bboxes (length pre) (length items) dim
    (pre ++ items ++ post, left_areas, best)
  = Fault OutOfRange.
Proof.
  intros Hcount Hswo Hex.
  set (items' := std_sort (BboxSortPredicate bboxes dim) items).
  assert (Hperm : Permutation items items') by (apply std_sort_permutes, Hswo).
  assert (Hlen : length items' = length items)
    by (symmetry; apply Permutation_length, Hperm).
  apply Exists_exists in Hex. destruct Hex as (idx & Hin & Hidx).
  apply (Permutation_in idx Hperm) in Hin.
  apply In_nth_error in Hin. destruct Hin as (k & Hk).
  assert (Hklt : k < length items)
    by (rewrite <- Hlen; apply nth_error_Some; congruence).
  unfold dimension_body. rewrite sort_range_spec. cbn [bind]. fold items'.
  assert (Hleft_bad : forall s,
            left_sweep_body bboxes (length pre) (pre ++ items' ++ post) k s
            = Fault OutOfRange).
  { intros (acc, areas). unfold left_sweep_body.
    rewrite (vec_get_app_middle pre items' post k idx Hk). cbn [bind].
    rewrite vec_get_outside by exact Hidx. reflexivity. }
  destruct (Nat.le_gt_cases k (length items - 2)) as [Hfirst|Hlast].
  - rewrite (for_each_out_of_range _ _ k); [reflexivity| |exact Hleft_bad|].
    + apply in_seq. lia.
    + intros j s. apply left_sweep_body_cases.
  - destruct (for_each_ok_or_out_of_range (seq 0 (length items - 1))
                (left_sweep_body bboxes (length pre) (pre ++ items' ++ post))
                (left_sweep_body_cases bboxes (length pre)
                   (pre ++ items' ++ post))
                (invalidate, left_areas)) as [((acc & areas1) & ->)| ->];
      cbn [bind]; [|reflexivity].
    rewrite (for_each_out_of_range _ _ k); [reflexivity| | |].
    + apply -> in_rev. apply in_seq. lia.
    + intros (acc', best'). unfold right_sweep_body.
      rewrite (vec_get_app_middle pre items' post k idx Hk). cbn [bind].
      rewrite vec_get_outside by exact Hidx. reflexivity.
    + intros j s. apply right_sweep_body_cases.
Qed.

(** X6.  Past the leaf-size test, [partition] sorts the range and reads
    the box of every item with no check: on a range that runs past the end
    of the index vector, or that holds an item that is the position of no
    box, it has no defined result, whatever the costs. *)
Theorem partition_out_of_range (bboxes : list B) (begin end_ : nat)
    (bbox : B) (p : SAHPartitioner V) :
  1 < end_ - begin ->
  m_max_leaf_size p < end_ - begin ->
  0 < Dimension ->
  strict_weak_on (BboxSortPredicate bboxes 0)
                 (window begin (end_ - begin) (m_indices p)) ->
  length (m_indices p) < end_ \/
  Exists (fun idx => length bboxes <= idx)
         (window begin (end_ - begin) (m_indices p)) ->
  partition bboxes begin end_ bbox p = Fault OutOfRange.
Proof.
  intros Hcount Hleaf Hdim Hswo Hcase. unfold partition.
  destruct (Nat.ltb_spec end_ begin) as [|_]; [lia|].
  destruct (Nat.leb_spec (end_ - begin) 1) as [|_]; [lia|].
  destruct (Nat.leb_spec (end_ - begin) (m_max_leaf_size p)) as [|_]; [lia|].
  unfold find_best_split.
  destruct Dimension as [|d]; [lia|]. cbn [seq for_each].
  assert (Hbody : forall areas best,
            dimension_body bboxes begin (end_ - begin) 0
              (m_indices p, areas, best) = Fault OutOfRange).
  { intros areas best.
    destruct (Nat.lt_ge_cases (length (m_indices p)) end_) as [Hend|Hend].
    - unfold dimension_body, sort_range.
      destruct (Nat.leb_spec (begin + (end_ - begin)) (length (m_indices p)))
        as [|_]; [lia|]. reflexivity.
    - destruct Hcase as [|Hex]; [lia|].
      destruct (split_around_window begin (end_ - begin) (m_indices p))
        as (Hsplit & Hpre & Hitems); [lia|].
      rewrite Hsplit. rewrite <- Hpre at 1. rewrite <- Hitems at 1.
      apply dimension_body_out_of_range; [lia|exact Hswo|exact Hex]. }
  rewrite Hbody. reflexivity.
Qed.

Lemma for_each_ext {S : Type} (l : list nat) (f g : nat -> S -> result S) :
  (forall i s, In i l -> f i s = g i s) ->
  forall s, for_each l f s = for_each l g s.
Proof.
  induction l as [|i l IH]; intros H s; cbn [for_each]; [reflexivity|].
  rewrite (H i s) by (left; reflexivity).
  destruct (g i s); cbn [bind]; [|reflexivity].
  apply IH. intros j s' Hj. apply H. right. exact Hj.
Qed.

(** X10.  A valid call of [partition] on [[begin, end)] leaves
    [compute_bbox] of every range that does not overlap [[begin, end)] as
    it was, result or fault: the box the caller holds for a sibling range
    stays the box of that range. *)
Theorem partition_keeps_sibling_bbox (bboxes : list B) (begin end_ : nat)
    (bbox : B) (p : SAHPartitioner V) (b e : nat) :
  valid_call bboxes begin end_ p ->
  e <= begin \/ end_ <= b ->
  exists r p',
    partition bboxes begin end_ bbox p = Ok (r, p') /\
    compute_bbox bboxes b e p' = compute_bbox bboxes b e p.
Proof.
  intros Hvalid Hdisjoint.
  destruct (partition_indices bboxes begin end_ bbox p Hvalid)
    as (r & pre & items & items' & post & areas'
        & Hrun & Hsplit & _ & Hpre & Hlen' & Hperm & _).
  assert (Hlen : length items = end_ - begin)
    by (rewrite (Permutation_length Hperm); exact Hlen').
  destruct Hvalid as (Hcount & _).
  eexists r, _. split; [exact Hrun|].
  unfold compute_bbox. cbn [with_arrays m_indices].
  apply for_each_ext. intros i acc Hi. apply in_seq in Hi.
  replace (vec_get (pre ++ items' ++ post) i) with (vec_get (m_indices p) i);
    [reflexivity|].
  unfold vec_get. rewrite Hsplit.
  destruct (Nat.lt_ge_cases i begin) as [Hlt|Hge].
  - rewrite !nth_error_app1 by lia. reflexivity.
  - rewrite !(nth_error_app2 pre) by lia.
    rewrite !nth_error_app2 by lia. rewrite Hlen, Hlen'. reflexivity.
Qed.

End OutOfRange.

(** * Properties of the name suggestions *)

Section NameSuggestionProperties.

Import String.
Local Open Scope string_scope.

Context {SC : StringConversions}.

Lemma substring_0_append (p s : string) :
  substring 0 (length p) (p ++ s) = p.
Proof.
  induction p as [|c p IH]; cbn [length append substring].
  - destruct s; reflexivity.
  - rewrite IH. reflexivity.
Qed.

Lemma substring_0_length (s : string) : substring 0 (length s) s = s.
Proof.
  induction s as [|c s IH]; cbn [length substring]; [reflexivity|].
  rewrite IH. reflexivity.
Qed.

Lemma length_append (p s : string) :
  length (p ++ s) = (length p + length s)%nat.
Proof.
  induction p as [|c p IH]; cbn [length append]; [reflexivity|].
  rewrite IH. reflexivity.
Qed.

Lemma substring_after_append (p s : string) :
  substring (length p) (length (p ++ s) - length p) (p ++ s) = s.
Proof.
  rewrite length_append.
  replace (length p + length s - length p)%nat with (length s) by lia.
  induction p as [|c p IH]; cbn [length append]; [apply substring_0_length|].
  cbn [substring]. exact IH.
Qed.

Lemma length_substring_0 (n : nat) (s : string) :
  (length (substring 0 n s) <= length s)%nat.
Proof.
  revert n. induction s as [|c s IH]; intros [|n]; cbn [substring length];
    try lia.
  specialize (IH n). lia.
Qed.

(** One turn of the loop throws nothing: the second [substr] starts inside
    the name, which the test on the prefix guards. *)
Lemma name_suggestion_body_spec (prefix entity_name : string) (m : Z) :
  name_suggestion_body prefix entity_name m
  = Ok (match name_number prefix entity_name with
        | Some number => Z.max m number
        | None => m
        end).
Proof.
  unfold name_suggestion_body, name_number, substr_from, substr.
  cbn [Nat.leb bind].
  destruct (String.eqb_spec (substring 0 (length prefix) entity_name) prefix)
    as [E|E]; [|reflexivity].
  assert (Hlen : (length prefix <= length entity_name)%nat).
  { rewrite <- E at 1. apply length_substring_0. }
  destruct (Nat.leb_spec (length prefix) (length entity_name)) as [_|]; [|lia].
  cbn [bind].
  destruct (from_string _) as [number|]; [|reflexivity].
  destruct (Z.ltb_spec m number); f_equal; lia.
Qed.

Lemma name_suggestion_loop_spec (prefix : string) (entities : list string) :
  forall m,
  name_suggestion_loop prefix entities m
  = Ok (greatest_number prefix entities m).
Proof.
  induction entities as [|e entities IH]; intros m; [reflexivity|].
  cbn [name_suggestion_loop]. rewrite name_suggestion_body_spec. cbn [bind].
  apply IH.
Qed.

Lemma greatest_number_above (prefix : string) (entities : list string) :
  forall m,
  (m <= greatest_number prefix entities m)%Z /\
  forall e n, In e entities -> name_number prefix e = Some n ->
    (n <= greatest_number prefix entities m)%Z.
Proof.
  unfold greatest_number.
  induction entities as [|e entities IH]; intros m; cbn [fold_left].
  - split; [lia|]. intros e n [].
  - set (m' := match name_number prefix e with
               | Some number => Z.max m number
               | None => m
               end).
    destruct (IH m') as (Hm' & Hall).
    assert (Hmm' : (m <= m')%Z) by (unfold m'; destruct (name_number _ _); lia).
    split; [lia|].
    intros e' n [<-|Hin] Hn; [|apply (Hall e' n Hin Hn)].
    unfold m' in Hm' |- *. rewrite Hn in Hm' |- *. lia.
Qed.

Lemma greatest_number_cases (prefix : string) (entities : list string) :
  forall m,
  greatest_number prefix entities m = m \/
  exists e, In e entities /\
    name_number prefix e = Some (greatest_number prefix entities m).
Proof.
  unfold greatest_number.
  induction entities as [|e entities IH]; intros m; cbn [fold_left];
    [left; reflexivity|].
  destruct (IH (match name_number prefix e with
                | Some number => Z.max m number
                | None => m
                end)) as [E|(e' & Hin & He')].
  - rewrite E. destruct (name_number prefix e) as [n|] eqn:Hn;
      [|left; reflexivity].
    destruct (Z.max_spec m n) as [(_ & ->)|(_ & ->)].
    + right. exists e. split; [left; reflexivity|exact Hn].
    + left. reflexivity.
  - right. exists e'. split; [right; exact Hin|exact He'].
Qed.

Lemma name_number_of_suggestion {IC : IntConversions SC} (prefix : string)
    (n : Z) :
  (int_min <= n <= int_max)%Z ->
  name_number prefix (prefix ++ to_string n) = Some n.
Proof.
  intros Hn. unfold name_number.
  rewrite substring_0_append, String.eqb_refl, substring_after_append.
  apply from_to_string, Hn.
Qed.

Lemma name_number_is_int {IC : IntConversions SC} (prefix e : string) (n : Z) :
  name_number prefix e = Some n -> (int_min <= n <= int_max)%Z.
Proof.
  unfold name_number. destruct (_ =? _); [|discriminate].
  apply from_string_is_int.
Qed.

Lemma greatest_number_is_int {IC : IntConversions SC} (prefix : string)
    (entities : list string) :
  (0 <= greatest_number prefix entities 0 <= int_max)%Z.
Proof.
  split; [apply greatest_number_above|].
  destruct (greatest_number_cases prefix entities 0%Z) as [->|(e & _ & He)].
  - unfold int_max. lia.
  - apply (name_number_is_int prefix e), He.
Qed.

(** X7.  With conversions that read back the [int]s they write, as long
    as no entity carries the greatest [int] after the prefix,
    [get_name_suggestion] returns the prefix followed by a number from [1]
    on, and no entity of the container has that name. *)
Theorem name_suggestion_is_fresh {IC : IntConversions SC} (prefix : string)
    (entities : list string) :
  (forall e, In e entities -> name_number prefix e <> Some int_max) ->
  exists n,
    (1 <= n <= int_max)%Z /\
    get_name_suggestion prefix entities = Ok (prefix ++ to_string n) /\
    ~ In (prefix ++ to_string n) entities.
Proof.
  intros Hmax.
  pose proof (greatest_number_is_int prefix entities) as Hint.
  set (M := greatest_number prefix entities 0%Z) in *.
  assert (HM : (M < int_max)%Z).
  { destruct (greatest_number_cases prefix entities 0%Z) as [E|(e & Hin & He)];
      fold M in E || fold M in He.
    - rewrite E. unfold int_max. lia.
    - assert (M <> int_max) by (intros E; rewrite E in He; apply (Hmax e Hin He)).
      lia. }
  exists (M + 1)%Z. split; [lia|]. split.
  - unfold get_name_suggestion. rewrite name_suggestion_loop_spec. cbn [bind].
    fold M. destruct (Z.ltb_spec M int_max); [reflexivity|lia].
  - intros Hin.
    pose proof (proj2 (greatest_number_above prefix entities 0%Z)
                  (prefix ++ to_string (M + 1)) (M + 1)%Z Hin) as Habove.
    fold M in Habove.
    assert (M + 1 <= M)%Z; [|lia].
    apply Habove, name_number_of_suggestion. unfold int_min. lia.
Qed.

(** X8.  [get_name_suggestion] throws nothing, and the only names it has
    no result for are those of a container with an entity that carries the
    greatest [int] after the prefix: the sum [max_number + 1] is then out of
    the range of [int]. *)
Theorem name_suggestion_overflow {IC : IntConversions SC} (prefix : string)
    (entities : list string) :
  (get_name_suggestion prefix entities = Fault OutOfRange <->
   exists e, In e entities /\ name_number prefix e = Some int_max) /\
  (forall f, get_name_suggestion prefix entities = Fault f -> f = OutOfRange).
Proof.
  pose proof (greatest_number_is_int prefix entities) as Hint.
  unfold get_name_suggestion. rewrite name_suggestion_loop_spec. cbn [bind].
  set (M := greatest_number prefix entities 0%Z) in *.
  destruct (Z.ltb_spec M int_max) as [Hlt|Hge].
  - split; [|discriminate]. split; [discriminate|].
    intros (e & Hin & He).
    pose proof (proj2 (greatest_number_above prefix entities 0%Z)
                  e int_max Hin He) as Habove.
    fold M in Habove. lia.
  - split; [|intros f Hf; congruence]. split; [|reflexivity]. intros _.
    destruct (greatest_number_cases prefix entities 0%Z) as [E|(e & Hin & He)];
      fold M in E || fold M in He.
    + rewrite E in Hge. unfold int_max in Hge. lia.
    + exists e. split; [exact Hin|].
      replace int_max with M by lia. exact He.
Qed.

Lemma greatest_number_permutation (prefix : string)
    (entities entities' : list string) :
  Permutation entities entities' ->
  forall m,
  greatest_number prefix entities m = greatest_number prefix entities' m.
Proof.
  unfold greatest_number.
  induction 1 as [|e l l' _ IH|a b l|l l' l'' _ IH1 _ IH2]; intros m;
    cbn [fold_left].
  - reflexivity.
  - apply IH.
  - f_equal. destruct (name_number prefix a), (name_number prefix b);
      try reflexivity. lia.
  - rewrite IH1. apply IH2.
Qed.

(** X9.  The name suggested does not depend on the order of the entities
    in the container. *)
Theorem name_suggestion_order_independent (prefix : string)
    (entities entities' : list string) :
  Permutation entities entities' ->
  get_name_suggestion prefix entities = get_name_suggestion prefix entities'.
Proof.
  intros HP. unfold get_name_suggestion.
  rewrite !name_suggestion_loop_spec.
  rewrite (greatest_number_permutation prefix _ _ HP). reflexivity.
Qed.

End NameSuggestionProperties.

(** * The further properties at work *)

Lemma valid_callb_sound (bboxes : list AABB3) (begin end_ : nat)
    (p : SAHPartitioner spec_float) :
  valid_callb bboxes begin end_ p = true -> valid_call bboxes begin end_ p.
Proof.
  unfold valid_callb. rewrite !andb_true_iff, !forallb_forall.
  intros (((Hcount & Hend) & Hall) & Hswo).
  apply Nat.ltb_lt in Hcount. apply Nat.leb_le in Hend.
  split; [exact Hcount|]. split; [exact Hend|].
  split; [unfold Dimension, three_dimensions; lia|]. split.
  - apply Forall_forall. intros idx Hidx. apply Nat.ltb_lt, Hall, Hidx.
  - intros dim Hdim. apply strict_weak_onb_sound, Hswo.
    unfold Dimension, three_dimensions in Hdim.
    destruct dim as [|[|[|dim]]]; cbn; auto. lia.
Qed.

Lemma partition_sides_are_valid_witness :
  exists r p',
    partition clusters 0 4 (bbox_of clusters) clusters_partitioner
    = Ok (r, p') /\
    (1 < r - 0 -> valid_call clusters 0 r p') /\
    (1 < 4 - r -> valid_call clusters r 4 p').
Proof.
  exact (partition_sides_are_valid clusters 0 4 (bbox_of clusters)
           clusters_partitioner (clusters_valid 1 one)).
Defined.

(** A build of two calls: the four boxes of [clusters], then the two of
    the left cluster. *)
Lemma clusters_build :
  exists p,
    builds clusters clusters_partitioner p /\
    get_item_ordering p = [0; 2; 1; 3].
Proof.
  eexists. split.
  - eapply builds_call with (begin := 0) (end_ := 4) (bbox := bbox_of clusters).
    + apply (clusters_valid 1 one).
    + vm_compute. reflexivity.
    + eapply builds_call with (begin := 0) (end_ := 2)
        (bbox := AABB3_insert (box 0 0 0 1 1 1) (box 0 1 0 1 2 1)).
      * apply valid_callb_sound. vm_compute. reflexivity.
      * vm_compute. reflexivity.
      * apply builds_done.
  - reflexivity.
Qed.

Lemma item_ordering_is_kept_witness :
  exists p,
    builds clusters clusters_partitioner p /\
    Permutation (seq 0 4) (get_item_ordering p) /\
    length (get_item_ordering p) = 4 /\
    NoDup (get_item_ordering p) /\
    m_max_leaf_size p = 1 /\
    m_interior_node_traversal_cost p = one /\
    m_triangle_intersection_cost p = one.
Proof.
  destruct clusters_build as (p & Hbuilds & _).
  exists p. split; [exact Hbuilds|].
  apply (item_ordering_is_kept clusters 4 1 one one clusters_partitioner p).
  - reflexivity.
  - exact Hbuilds.
Defined.

Lemma partition_keeps_bbox_witness :
  exists r p' before after,
    partition clusters 0 4 (bbox_of clusters) clusters_partitioner
    = Ok (r, p') /\
    compute_bbox clusters 0 4 clusters_partitioner = Ok before /\
    compute_bbox clusters 0 4 p' = Ok after /\
    same_box before after.
Proof.
  exact (partition_keeps_bbox clusters 0 4 (bbox_of clusters)
           clusters_partitioner (clusters_valid 1 one)).
Defined.

(** The sign of a zero can change: sorting the two origins puts the one
    with [+0] first, whichever came first before the call. *)
Example partition_changes_zero_sign :
  exists r p',
    partition origins 0 2 (origin false) (ordered_partitioner [1; 0])
    = Ok (r, p') /\
    compute_bbox origins 0 2 (ordered_partitioner [1; 0]) = Ok (origin true) /\
    compute_bbox origins 0 2 p' = Ok (origin false).
Proof.
  eexists _, _. split; [vm_compute; reflexivity|].
  split; vm_compute; reflexivity.
Qed.

Lemma partition_siblings_commute_witness :
  let left_bbox := AABB3_insert (box 0 0 0 1 1 1) (box 10 0 0 11 1 1) in
  let right_bbox := AABB3_insert (box 0 1 0 1 2 1) (box 10 1 0 11 2 1) in
  exists r1 r2 pa pb pab pba,
    partition clusters 0 2 left_bbox clusters_partitioner = Ok (r1, pa) /\
    partition clusters 2 4 right_bbox pa = Ok (r2, pab) /\
    partition clusters 2 4 right_bbox clusters_partitioner = Ok (r2, pb) /\
    partition clusters 0 2 left_bbox pb = Ok (r1, pba) /\
    get_item_ordering pab = get_item_ordering pba.
Proof.
  intros left_bbox right_bbox.
  apply partition_siblings_commute.
  - lia.
  - apply valid_callb_sound. vm_compute. reflexivity.
  - apply valid_callb_sound. vm_compute. reflexivity.
Defined.

Lemma compute_bbox_out_of_range_witness :
  compute_bbox clusters 0 4 stray_partitioner = Fault OutOfRange <->
  length (m_indices stray_partitioner) < 4 \/
  Exists (fun idx => length clusters <= idx)
         (window 0 (4 - 0) (m_indices stray_partitioner)).
Proof.
  apply compute_bbox_out_of_range. lia.
Defined.

(** The call of the witness does read outside [bboxes]. *)
Example compute_bbox_stray :
  compute_bbox clusters 0 4 stray_partitioner = Fault OutOfRange.
Proof. reflexivity. Qed.

Lemma partition_out_of_range_witness :
  partition clusters 0 4 (bbox_of clusters) stray_partitioner
  = Fault OutOfRange.
Proof.
  apply partition_out_of_range.
  - cbn. lia.
  - cbn. lia.
  - unfold Dimension, three_dimensions. lia.
  - apply strict_weak_onb_sound. vm_compute. reflexivity.
  - right. apply Exists_exists. exists 7. split; [cbn; auto|cbn; lia].
Defined.

Lemma partition_keeps_sibling_bbox_witness :
  exists r p',
    partition clusters 0 2
      (AABB3_insert (box 0 0 0 1 1 1) (box 10 0 0 11 1 1)) clusters_partitioner
    = Ok (r, p') /\
    compute_bbox clusters 2 4 p' = compute_bbox clusters 2 4 clusters_partitioner.
Proof.
  apply partition_keeps_sibling_bbox.
  - apply valid_callb_sound. vm_compute. reflexivity.
  - right. lia.
Defined.

(** ** Names *)

Lemma to_int_is_no_nil (n : Z) :
  Z.to_int n <> Decimal.Pos Decimal.Nil /\
  Z.to_int n <> Decimal.Neg Decimal.Nil.
Proof.
  destruct n as [|p|p]; cbn [Z.to_int]; split; try discriminate;
    intros E; injection E as E; apply (DecimalPos.Unsigned.to_uint_nonnil p E).
Qed.

#[export] Instance decimal_int_conversions : IntConversions decimal_conversions.
Proof.
  split; cbn [from_string to_string decimal_conversions].
  - intros s n. unfold decimal_from_string.
    destruct (DecimalString.NilZero.int_of_string s) as [d|]; [|discriminate].
    destruct (Z.leb_spec int_min (Z.of_int d)), (Z.leb_spec (Z.of_int d) int_max);
      cbn [andb]; try discriminate.
    intros E. injection E as <-. lia.
  - intros n Hn. unfold decimal_from_string, decimal_to_string.
    destruct (to_int_is_no_nil n) as (Hpos & Hneg).
    rewrite (DecimalString.NilZero.isi _ Hpos Hneg), DecimalZ.of_to.
    destruct (Z.leb_spec int_min n), (Z.leb_spec n int_max); cbn [andb];
      try lia. reflexivity.
Qed.

Section NameSuggestionExamples.

Import String.
Local Open Scope string_scope.

(** The unit tests of the source. *)
Example GetNameSuggestion_GivenZeroEntity_ReturnsNameWithFirstSuffix :
  get_name_suggestion "assembly" [] = Ok "assembly1".
Proof. vm_compute. reflexivity. Qed.

Example GetNameSuggestion_GivenTwoEntitiesWithMatchingPrefixes_ReturnsNameWithNextSuffix :
  get_name_suggestion "assembly" two_assemblies = Ok "assembly4".
Proof. vm_compute. reflexivity. Qed.

Example GetNameSuggestion_GivenEntityWithNegativeSuffix_ReturnsNameWithFirstSuffix :
  get_name_suggestion "assembly" ["assembly-5"] = Ok "assembly1".
Proof. vm_compute. reflexivity. Qed.

Example GetNameSuggestion_GivenOneEntityWithNonMatchingPrefix_ReturnsNameWithFirstSuffix :
  get_name_suggestion "assembly" ["object"] = Ok "assembly1".
Proof. vm_compute. reflexivity. Qed.

Example GetNameSuggestion_GivenOneEntityWithNonNumericSuffix_ReturnsNameWithFirstSuffix :
  get_name_suggestion "assembly" ["assembly_instance"] = Ok "assembly1".
Proof. vm_compute. reflexivity. Qed.

Lemma name_suggestion_is_fresh_witness :
  exists n,
    (1 <= n <= int_max)%Z /\
    get_name_suggestion "assembly" two_assemblies
    = Ok ("assembly" ++ to_string n) /\
    ~ In ("assembly" ++ to_string n) two_assemblies.
Proof.
  apply name_suggestion_is_fresh.
  intros e [<-|[<-|[]]]; vm_compute; discriminate.
Defined.

Lemma name_suggestion_overflow_witness :
  (get_name_suggestion "assembly" ["assembly2147483647"] = Fault OutOfRange <->
   exists e, In e ["assembly2147483647"] /\
             name_number "assembly" e = Some int_max) /\
  (forall f,
     get_name_suggestion "assembly" ["assembly2147483647"] = Fault f ->
     f = OutOfRange).
Proof.
  exact (name_suggestion_overflow "assembly" ["assembly2147483647"]).
Defined.

Lemma name_suggestion_order_independent_witness :
  get_name_suggestion "assembly" two_assemblies
  = get_name_suggestion "assembly" ["assembly1"; "assembly3"].
Proof.
  apply name_suggestion_order_independent. apply perm_swap.
Defined.

End NameSuggestionExamples.
